(** * update_data.py: the aggregation and report-embedding pipeline

    A shallow embedding of [update_data.py] (the Snowflake aggregation
    queries, the date-range planner, the cache builder and the injector that
    splices the serialized cache into [index.html]), followed by the
    properties of the specification that were checked against it.

    Modelling choices, once and for all:
    - a Python [str] is a list of Unicode code points ([N]);
    - Python integers are [Z]; string indices are [Z] too, because [str.find]
      answers [-1] and the source does arithmetic on that answer;
    - a Python [float] is a binary64 value ([PrimFloat.float]); the script
      never computes with floats, it converts and prints them;
    - exceptions and mutable state (the connection, the artifact file) are
      threaded through a state-and-exception monad [M];
    - [index.html] is modelled as the text [f.read()] returns and [f.write]
      receives; the translation of line ends that text-mode [open] does
      between that text and the file on disk is modelled apart
      ([read_newlines], [write_newlines], [update_html_file_on_disk]);
      standard output is not modelled. *)

From Stdlib Require Import List ZArith NArith Lia Bool Ascii String.
From Stdlib Require Import Permutation Sorted.
From Stdlib Require Import DecimalString.
From Stdlib Require Import Floats.
Import ListNotations.

Local Open Scope Z_scope.
Set Warnings "-register-all".

(* ================================================================== *)
(** * Python values and built-ins used by the script *)
(* ================================================================== *)

Module Py.

(** A character is its code point, a string the list of its characters. *)
Definition char := N.
Definition str := list char.

(** The string literal [s] of the source as a [str]. *)
Definition lit (s : string) : str :=
  List.map N_of_ascii (list_ascii_of_string s).

Definition len (s : str) : Z := Z.of_nat (List.length s).

Fixpoint str_eqb (a b : str) : bool :=
  match a, b with
  | [], [] => true
  | x :: a', y :: b' => N.eqb x y && str_eqb a' b'
  | _, _ => false
  end.

(** [startswith sub s]: [sub] occurs in [s] at offset 0. *)
Fixpoint startswith (sub s : str) : bool :=
  match sub, s with
  | [], _ => true
  | _ :: _, [] => false
  | x :: sub', y :: s' => N.eqb x y && startswith sub' s'
  end.

(** Left-to-right scan for the first occurrence of [sub] in [s]; [pos] is the
    index of the head of [s] in the string being searched. *)
Fixpoint find_from (sub s : str) (pos : Z) : option Z :=
  if startswith sub s then Some pos
  else match s with
       | [] => None
       | _ :: s' => find_from sub s' (pos + 1)
       end.

(** How Python clamps the start index of [str.find] and of a slice bound:
    a negative index counts from the end, and the result is cut to
    [0 .. len s]. *)
Definition clamp_index (s : str) (i : Z) : Z :=
  if i <? 0 then Z.max (len s + i) 0 else Z.min i (len s).

(** [s.find(sub, start)]: the lowest index [>= start] at which [sub] occurs,
    [-1] when there is none (also when [start > len(s)]). *)
Definition find (s sub : str) (start : Z) : Z :=
  if len s <? start then -1
  else
    let st := clamp_index s start in
    match find_from sub (skipn (Z.to_nat st) s) st with
    | Some p => p
    | None => -1
    end.

(** [s[:i]] and [s[i:]]. *)
Definition slice_to (s : str) (i : Z) : str :=
  firstn (Z.to_nat (clamp_index s i)) s.

Definition slice_from (s : str) (i : Z) : str :=
  skipn (Z.to_nat (clamp_index s i)) s.

(** [str.isspace] on one character, for the whitespace code points of the
    Unicode database. *)
Definition isspace (c : char) : bool :=
  ((9 <=? c) && (c <=? 13) || (28 <=? c) && (c <=? 32)
   || (c =? 133) || (c =? 160) || (c =? 5760)
   || (8192 <=? c) && (c <=? 8202)
   || (c =? 8232) || (c =? 8233) || (c =? 8239) || (c =? 8287)
   || (c =? 12288))%N.

Fixpoint lstrip (s : str) : str :=
  match s with
  | c :: s' => if isspace c then lstrip s' else s
  | [] => []
  end.

(** [s.strip()]. *)
Definition strip (s : str) : str := rev (lstrip (rev (lstrip s))).

(** [repr] of an [int], which is also how [json] prints it. *)
Definition int_repr (z : Z) : str :=
  lit (NilZero.string_of_int (Z.to_int z)).

(** [list.index] on a list of strings: the first position of [x]. *)
Fixpoint index (l : list str) (x : str) : option nat :=
  match l with
  | [] => None
  | y :: l' => if str_eqb y x then Some O
               else option_map S (index l' x)
  end.

End Py.

Import Py.

(* ================================================================== *)
(** * [json.dumps(obj, indent=n)] *)
(* ================================================================== *)

(** The values the script serializes: integers, floats, strings, lists and
    dictionaries (in insertion order). *)
Inductive json : Type :=
| JInt (z : Z)
| JFloat (f : float)
| JStr (s : str)
| JList (items : list json)
| JDict (items : list (str * json)).

Definition hex_digit (n : N) : char :=
  (if n <? 10 then 48 + n else 87 + n)%N.

(** ['\\u{0:04x}'.format(n)] for [n < 0x10000]. *)
Definition u_escape (n : N) : str :=
  ([92; 117; hex_digit ((n / 4096) mod 16); hex_digit ((n / 256) mod 16);
    hex_digit ((n / 16) mod 16); hex_digit (n mod 16)])%N.

(** One character under [ensure_ascii=True]: the short escapes, printable
    ASCII as it is, everything else as [\uXXXX] (a surrogate pair above the
    basic plane). *)
Definition escape_char (c : char) : str :=
  (if c =? 92 then [92; 92]
   else if c =? 34 then [92; 34]
   else if c =? 8 then [92; 98]
   else if c =? 12 then [92; 102]
   else if c =? 10 then [92; 110]
   else if c =? 13 then [92; 114]
   else if c =? 9 then [92; 116]
   else if (32 <=? c) && (c <=? 126) then [c]
   else if c <? 65536 then u_escape c
   else let n := c - 65536 in
        u_escape (N.lor 55296 (N.land (N.shiftr n 10) 1023))
        ++ u_escape (N.lor 56320 (N.land n 1023)))%N.

Definition encode_string (s : str) : str :=
  [34%N] ++ flat_map escape_char s ++ [34%N].

Fixpoint join (sep : str) (l : list str) : str :=
  match l with
  | [] => []
  | [x] => x
  | x :: l' => x ++ sep ++ join sep l'
  end.

(** A newline followed by [indent * level] spaces. *)
Definition newline_indent (indent level : nat) : str :=
  10%N :: repeat 32%N (indent * level).

Section Dumps.

(** [float.__repr__] as the encoder uses it (with [NaN] and [Infinity] for
    the non-finite values): C code of the interpreter, taken as given. *)
Variable floatstr : float -> str.

Fixpoint dumps_level (indent level : nat) (j : json) : str :=
  match j with
  | JInt z => int_repr z
  | JFloat f => floatstr f
  | JStr s => encode_string s
  | JList [] => lit "[]"
  | JList items =>
      lit "[" ++ newline_indent indent (S level)
      ++ join (lit "," ++ newline_indent indent (S level))
              (List.map (dumps_level indent (S level)) items)
      ++ newline_indent indent level ++ lit "]"
  | JDict [] => lit "{}"
  | JDict items =>
      lit "{" ++ newline_indent indent (S level)
      ++ join (lit "," ++ newline_indent indent (S level))
              (List.map (fun kv => match kv with
                                   | (k, v) => encode_string k ++ lit ": "
                                               ++ dumps_level indent (S level) v
                                   end) items)
      ++ newline_indent indent level ++ lit "}"
  end.

Definition dumps (indent : nat) (j : json) : str := dumps_level indent 0 j.

End Dumps.

(* ================================================================== *)
(** * Data model of the cache *)
(* ================================================================== *)

(** The dictionaries the script builds have fixed keys; they are records
    here, and [json_of_*] lists the keys in the order of the dict literal. *)
Record SummaryStats := {
  uniqueUsers : Z;
  totalTransactions : Z;
  totalVolume : float;
  avgDeposit : float
}.

Record Bucket := { bucket_range : str; bucket_count : Z }.

Record InstitutionAgg := {
  inst_name : str;
  inst_count : Z;
  inst_volume : float
}.

Record RangeSnapshot := {
  summary : SummaryStats;
  buckets : list Bucket;
  topByFrequency : list InstitutionAgg;
  topByVolume : list InstitutionAgg
}.

(** A Python [dict] with string keys: an association list in insertion
    order, without duplicate keys. *)
Definition dict (V : Type) := list (str * V).

Fixpoint dict_get {V} (k : str) (d : dict V) : option V :=
  match d with
  | [] => None
  | (k', v) :: d' => if str_eqb k' k then Some v else dict_get k d'
  end.

(** [d[k] = v]: an existing key keeps its place, a new key goes last. *)
Fixpoint dict_set {V} (k : str) (v : V) (d : dict V) : dict V :=
  match d with
  | [] => [(k, v)]
  | (k', v') :: d' =>
      if str_eqb k' k then (k', v) :: d' else (k', v') :: dict_set k v d'
  end.

Definition dict_keys {V} (d : dict V) : list str := List.map fst d.

Definition Cache := dict RangeSnapshot.

Definition json_of_summary (s : SummaryStats) : json :=
  JDict [(lit "uniqueUsers", JInt (uniqueUsers s));
         (lit "totalTransactions", JInt (totalTransactions s));
         (lit "totalVolume", JFloat (totalVolume s));
         (lit "avgDeposit", JFloat (avgDeposit s))].

Definition json_of_bucket (b : Bucket) : json :=
  JDict [(lit "range", JStr (bucket_range b));
         (lit "count", JInt (bucket_count b))].

Definition json_of_institution (i : InstitutionAgg) : json :=
  JDict [(lit "name", JStr (inst_name i));
         (lit "count", JInt (inst_count i));
         (lit "volume", JFloat (inst_volume i))].

Definition json_of_snapshot (r : RangeSnapshot) : json :=
  JDict [(lit "summary", json_of_summary (summary r));
         (lit "buckets", JList (List.map json_of_bucket (buckets r)));
         (lit "topByFrequency",
          JList (List.map json_of_institution (topByFrequency r)));
         (lit "topByVolume",
          JList (List.map json_of_institution (topByVolume r)))].

Definition json_of_cache (c : Cache) : json :=
  JDict (List.map (fun kv => (fst kv, json_of_snapshot (snd kv))) c).

(* ================================================================== *)
(** * Exceptions, state and the external collaborators *)
(* ================================================================== *)

Inductive exn : Type :=
| ValueError (msg : str)      (** [raise ValueError(msg)] in the script *)
| ValueError_index (x : str)  (** [list.index(x)]: [x] is not in the list *)
| TypeError                   (** [float(None)] *)
| FileNotFoundError           (** [open] of a missing [index.html] *)
| DatabaseError (info : str). (** anything the Snowflake connector raises *)

(** What a run can change: the text of [index.html] ([None]: no such file)
    and the number of Snowflake connections currently open. *)
Record world := mkWorld {
  index_html : option str;
  open_connections : nat
}.

Definition M (A : Type) : Type := world -> (exn + A) * world.

Definition ret {A} (a : A) : M A := fun w => (inr a, w).
Definition raise {A} (e : exn) : M A := fun w => (inl e, w).
Definition lift {A} (r : exn + A) : M A := fun w => (r, w).
Definition bind {A B} (m : M A) (k : A -> M B) : M B :=
  fun w => match m w with
           | (inl e, w') => (inl e, w')
           | (inr a, w') => k a w'
           end.

Declare Scope py_scope.
Delimit Scope py_scope with py.
Notation "x <- m ;; k" := (bind m (fun x => k))
  (at level 100, m at next level, right associativity) : py_scope.
Notation "m ;;; k" := (bind m (fun _ => k))
  (at level 100, right associativity) : py_scope.
Local Open Scope py_scope.

(** The row [fetchone] yields for the summary query: two [COUNT]s, which are
    never NULL, and a [SUM] and an [AVG], which are NULL ([None]) when no
    value was aggregated. *)
Definition summary_row : Type := Z * Z * option float * option float.

(** An open connection, seen through the four statements the script sends:
    for the bounds [start_date] and [end_date], either the rows the cursor
    fetches or the error [cursor.execute] raises. Institution names are
    filtered [IS NOT NULL] by the statement; a [SUM] may still be NULL. *)
Record Connection := {
  exec_summary : str -> str -> exn + summary_row;
  exec_buckets : str -> str -> exn + list (str * Z);
  exec_top_by_frequency : str -> str -> exn + list (str * Z * option float);
  exec_top_by_volume : str -> str -> exn + list (str * Z * option float)
}.

(** The surroundings of a run: the day [datetime.now()] falls on, as a
    proleptic Gregorian ordinal (day 1 is 0001-01-01), and what
    [snowflake.connector.connect] does. *)
Record Env := {
  now_ordinal : Z;
  snowflake : exn + Connection
}.

(** ** The summary statement, on the rows its WHERE clause selects *)

Record PostedTransaction := {
  PRN : option str;
  TRANSACTION_AMOUNT : option float  (** after [CAST(... AS FLOAT)] *)
}.

Definition non_null {A} (l : list (option A)) : list A :=
  flat_map (fun o => match o with Some a => [a] | None => [] end) l.

Definition float_of_nat (n : nat) : float :=
  PrimFloat.of_uint63 (Uint63.of_Z (Z.of_nat n)).

(** [COUNT(DISTINCT PRN), COUNT( * ), SUM(amount), AVG(amount)]: the counts
    of an empty selection are 0, its sum and average are NULL. (The order in
    which the engine adds floats is its own; rows are added left to right
    here.) *)
Definition sql_summary (matching : list PostedTransaction) : summary_row :=
  let users := nodup (list_eq_dec N.eq_dec) (non_null (List.map PRN matching)) in
  let amounts := non_null (List.map TRANSACTION_AMOUNT matching) in
  let total := fold_left PrimFloat.add amounts 0%float in
  (Z.of_nat (List.length users),
   Z.of_nat (List.length matching),
   match amounts with [] => None | _ => Some total end,
   match amounts with
   | [] => None
   | _ => Some (PrimFloat.div total (float_of_nat (List.length amounts)))
   end).

(** ** [datetime]: ordinal to calendar date, and [strftime('%Y-%m-%d')] *)

Definition days_before_month (month : Z) : Z :=
  nth (Z.to_nat month) [-1; 0; 31; 59; 90; 120; 151; 181; 212; 243; 273; 304; 334] 0.

Definition days_in_month (month : Z) : Z :=
  nth (Z.to_nat month) [-1; 31; 28; 31; 30; 31; 30; 31; 31; 30; 31; 30; 31] 0.

Definition Z_of_bool (b : bool) : Z := if b then 1 else 0.

(** [datetime._ord2ymd]. *)
Definition ord2ymd (ordinal : Z) : Z * Z * Z :=
  let n := ordinal - 1 in
  let n400 := n / 146097 in let n := n mod 146097 in
  let year := n400 * 400 + 1 in
  let n100 := n / 36524 in let n := n mod 36524 in
  let n4 := n / 1461 in let n := n mod 1461 in
  let n1 := n / 365 in let n := n mod 365 in
  let year := year + n100 * 100 + n4 * 4 + n1 in
  if (n1 =? 4) || (n100 =? 4) then (year - 1, 12, 31)
  else
    let leapyear := (n1 =? 3) && (negb (n4 =? 24) || (n100 =? 3)) in
    let month := Z.shiftr (n + 50) 5 in
    let preceding :=
      days_before_month month + Z_of_bool ((2 <? month) && leapyear) in
    if n <? preceding then
      let month := month - 1 in
      let preceding :=
        preceding - (days_in_month month + Z_of_bool ((month =? 2) && leapyear)) in
      (year, month, n - preceding + 1)
    else (year, month, n - preceding + 1).

(** A non-negative [z] in decimal, padded with zeros on the left to [width]
    digits: how [%m] and [%d] print a month and a day, and how [%Y] prints
    a year from 1000 on (below 1000 the padding of [%Y] depends on the
    platform). *)
Definition zero_padded (width : nat) (z : Z) : str :=
  let digits := int_repr z in
  repeat 48%N (width - List.length digits) ++ digits.

(** [d.strftime('%Y-%m-%d')] of the day with ordinal [ordinal]. *)
Definition strftime_ymd (ordinal : Z) : str :=
  match ord2ymd ordinal with
  | (y, m, d) =>
      zero_padded 4 y ++ lit "-" ++ zero_padded 2 m ++ lit "-" ++ zero_padded 2 d
  end.

(* ================================================================== *)
(** * The script *)
(* ================================================================== *)

(** [snowflake.connector.connect( **SNOWFLAKE_CONFIG )]: on success one more
    connection is open. *)
Definition get_snowflake_connection (env : Env) : M Connection :=
  fun w => match snowflake env with
           | inl e => (inl e, w)
           | inr conn =>
               (inr conn, mkWorld (index_html w) (S (open_connections w)))
           end.

(** [conn.close()]. *)
Definition conn_close : M unit :=
  fun w => (inr tt, mkWorld (index_html w) (Nat.pred (open_connections w))).

(** [float(x)] on a fetched cell: [float(None)] raises [TypeError]. *)
Definition py_float (x : option float) : M float :=
  match x with
  | Some f => ret f
  | None => raise TypeError
  end.

Definition query_summary_stats (conn : Connection) (start_date end_date : str)
  : M SummaryStats :=
  result <- lift (exec_summary conn start_date end_date) ;;
  match result with
  | (r0, r1, r2, r3) =>
      total_volume <- py_float r2 ;;
      avg_deposit <- py_float r3 ;;
      ret {| uniqueUsers := r0;
             totalTransactions := r1;
             totalVolume := total_volume;
             avgDeposit := avg_deposit |}
  end.

Definition bucket_order : list str :=
  [lit "$1-$250"; lit "$250-$500"; lit "$500-$750"; lit "$750-$1,000";
   lit "$1,000-$1,500"; lit "$1,500-$2,500"; lit "$2,500+"].

(** The lower bound of each label in the CASE expression of the bucket
    statement; its ELSE branch, [$2,500+], takes what the six ranges leave,
    which for deposits (amounts from 0 up) is 2500 and above. *)
Definition bucket_lower_bound (label : str) : option Z :=
  option_map (fun i => nth i [0; 250; 500; 750; 1000; 1500; 2500] 0)
             (index bucket_order label).

(** The key function of [buckets.sort]: [bucket_order.index(x['range'])]. *)
Definition bucket_key (x : Bucket) : exn + nat :=
  match index bucket_order (bucket_range x) with
  | Some i => inr i
  | None => inl (ValueError_index (bucket_range x))
  end.

(** [list.sort(key=...)] first calls the key function on every element, in
    order, and stops at the first exception. *)
Fixpoint sort_keys {A} (key : A -> exn + nat) (l : list A)
  : exn + list (nat * A) :=
  match l with
  | [] => inr []
  | x :: l' =>
      match key x with
      | inl e => inl e
      | inr k => match sort_keys key l' with
                 | inl e => inl e
                 | inr ks => inr ((k, x) :: ks)
                 end
      end
  end.

(** Then it sorts stably on the keys. Insertion before the first element
    with a key that is not smaller keeps equal keys in their original
    order, which determines the result of any stable sort. *)
Fixpoint insert_keyed {A} (k : nat) (x : A) (l : list (nat * A))
  : list (nat * A) :=
  match l with
  | [] => [(k, x)]
  | (k', y) :: l' =>
      if (k <=? k')%nat then (k, x) :: l else (k', y) :: insert_keyed k x l'
  end.

Fixpoint sort_keyed {A} (l : list (nat * A)) : list (nat * A) :=
  match l with
  | [] => []
  | (k, x) :: l' => insert_keyed k x (sort_keyed l')
  end.

Definition list_sort {A} (key : A -> exn + nat) (l : list A) : M (list A) :=
  match sort_keys key l with
  | inl e => raise e
  | inr ks => ret (List.map snd (sort_keyed ks))
  end.

(** One element of the list comprehension of [query_buckets]:
    [{'range': bucket, 'count': int(count)}]. *)
Definition bucket_of_row (r : str * Z) : Bucket :=
  {| bucket_range := fst r; bucket_count := snd r |}.

Definition query_buckets (conn : Connection) (start_date end_date : str)
  : M (list Bucket) :=
  results <- lift (exec_buckets conn start_date end_date) ;;
  let buckets := List.map bucket_of_row results in
  list_sort bucket_key buckets.

(** The list comprehension shared by the two top-10 queries. *)
Fixpoint institutions (results : list (str * Z * option float))
  : M (list InstitutionAgg) :=
  match results with
  | [] => ret []
  | (name, count, volume) :: rest =>
      v <- py_float volume ;;
      tail <- institutions rest ;;
      ret ({| inst_name := strip name; inst_count := count; inst_volume := v |}
           :: tail)
  end.

Definition query_top_by_frequency (conn : Connection)
  (start_date end_date : str) : M (list InstitutionAgg) :=
  results <- lift (exec_top_by_frequency conn start_date end_date) ;;
  institutions results.

Definition query_top_by_volume (conn : Connection)
  (start_date end_date : str) : M (list InstitutionAgg) :=
  results <- lift (exec_top_by_volume conn start_date end_date) ;;
  institutions results.

(** [get_date_ranges], with [today] the ordinal of [datetime.now()]. (A clock
    within 90 days of 0001-01-01 would make [today - timedelta(days=90)]
    overflow; that is not represented.) *)
Definition get_date_ranges (today : Z) : dict (str * str) :=
  [(lit "last_30", (strftime_ymd (today - 30), strftime_ymd today));
   (lit "last_60", (strftime_ymd (today - 60), strftime_ymd today));
   (lit "last_90", (strftime_ymd (today - 90), strftime_ymd today));
   (lit "august_2025", (lit "2025-08-01", lit "2025-08-31"));
   (lit "september_2025", (lit "2025-09-01", lit "2025-09-30"));
   (lit "october_2025", (lit "2025-10-01", lit "2025-10-31"));
   (lit "november_2025", (lit "2025-11-01", lit "2025-11-30"))].

Definition cache_key (start_date end_date : str) : str :=
  start_date ++ lit "_" ++ end_date.

(** The four queries of one range, in the order the dict literal evaluates
    them. *)
Definition query_range (conn : Connection) (start_date end_date : str)
  : M RangeSnapshot :=
  s <- query_summary_stats conn start_date end_date ;;
  b <- query_buckets conn start_date end_date ;;
  f <- query_top_by_frequency conn start_date end_date ;;
  v <- query_top_by_volume conn start_date end_date ;;
  ret {| summary := s; buckets := b; topByFrequency := f; topByVolume := v |}.

(** The [for] loop of [query_all_data] over [date_ranges.items()]. *)
Fixpoint query_ranges (conn : Connection) (date_ranges : dict (str * str))
  (data_cache : Cache) : M Cache :=
  match date_ranges with
  | [] => ret data_cache
  | (range_name, (start_date, end_date)) :: rest =>
      snapshot <- query_range conn start_date end_date ;;
      query_ranges conn rest
        (dict_set (cache_key start_date end_date) snapshot data_cache)
  end.

Definition query_all_data (env : Env) : M Cache :=
  conn <- get_snowflake_connection env ;;
  let date_ranges := get_date_ranges (now_ordinal env) in
  data_cache <- query_ranges conn date_ranges [] ;;
  (conn_close ;;;
   ret data_cache).

Definition start_marker : str := lit "const dataCache = {".
Definition end_marker : str := lit "        };".

Definition malformed_artifact : exn :=
  ValueError (lit "Could not find dataCache section in HTML file").

Section Injector.

Variable floatstr : float -> str.

(** The f-string [new_data_cache]. *)
Definition new_data_cache (data_cache : Cache) : str :=
  lit "const dataCache = "
  ++ slice_to (dumps floatstr 12 (json_of_cache data_cache)) (-1)
  ++ lit "        };".

Definition update_html_file (data_cache : Cache) : M unit :=
  fun w =>
    match index_html w with
    | None => (inl FileNotFoundError, w)
    | Some html_content =>
        let start_idx := find html_content start_marker 0 in
        let end_idx := find html_content end_marker start_idx + len end_marker in
        if (start_idx =? -1) || (end_idx =? -1) then
          (inl malformed_artifact, w)
        else
          let new_html :=
            slice_to html_content start_idx
            ++ new_data_cache data_cache
            ++ slice_from html_content end_idx in
          (inr tt, mkWorld (Some new_html) (open_connections w))
    end.

(** [main]: the [except] clause prints and re-raises, so an exception leaves
    [main] as it was raised. *)
Definition main (env : Env) : M unit :=
  data_cache <- query_all_data env ;;
  update_html_file data_cache.

End Injector.

(* ================================================================== *)
(** * Notions used to state the properties *)
(* ================================================================== *)

(** A computation that neither reads nor changes the world. *)
Definition stateless {A} (m : M A) : Prop := exists r, forall w, m w = (r, w).

Definition world0 : world := mkWorld None 0.

(** What the four queries of one range produce; they are stateless, so any
    world serves to run them. *)
Definition range_result (conn : Connection) (s e : str) : exn + RangeSnapshot :=
  fst (query_range conn s e world0).

(** The loop of [query_all_data] without the world. *)
Fixpoint build_cache (conn : Connection) (date_ranges : dict (str * str))
  (data_cache : Cache) : exn + Cache :=
  match date_ranges with
  | [] => inr data_cache
  | (_, (start_date, end_date)) :: rest =>
      match range_result conn start_date end_date with
      | inl err => inl err
      | inr snapshot =>
          build_cache conn rest
            (dict_set (cache_key start_date end_date) snapshot data_cache)
      end
  end.

Definition range_key (r : str * (str * str)) : str :=
  cache_key (fst (snd r)) (snd (snd r)).

Definition underscore : char := 95%N.

(** Position of a label in [bucket_order] (0 for an unknown one). *)
Definition label_rank (label : str) : nat :=
  match index bucket_order label with
  | Some i => i
  | None => O
  end.

Definition bucket_rank (b : Bucket) : nat := label_rank (bucket_range b).

(** The known labels that occur in [rows], in the order of [bucket_order]. *)
Definition returned_labels (rows : list (str * Z)) : list str :=
  filter (fun label => existsb (str_eqb label) (List.map fst rows)) bucket_order.

(** Both labels are known, and the amount range of [a] starts no higher
    than that of [b]. *)
Definition bucket_le (a b : Bucket) : Prop :=
  match bucket_lower_bound (bucket_range a),
        bucket_lower_bound (bucket_range b) with
  | Some x, Some y => x <= y
  | _, _ => False
  end.

Definition key_le {A} (a b : nat * A) : Prop := (fst a <= fst b)%nat.

(** The month and day [ord2ymd] computes for day [n] (from 0) of a year. *)
Definition month_day (n : Z) (leapyear : bool) : Z * Z :=
  let month := Z.shiftr (n + 50) 5 in
  let preceding :=
    days_before_month month + Z_of_bool ((2 <? month) && leapyear) in
  if n <? preceding then
    let month := month - 1 in
    let preceding :=
      preceding - (days_in_month month + Z_of_bool ((month =? 2) && leapyear)) in
    (month, n - preceding + 1)
  else (month, n - preceding + 1).

Definition month_day_ok (n : Z) (leapyear : bool) : bool :=
  match month_day n leapyear with
  | (m, d) => (1 <=? m) && (m <=? 12) && (1 <=? d) && (d <=? 31)
  end.

Definition is_digit (c : char) : bool := ((48 <=? c) && (c <=? 57))%N.

Definition padded_ok (width : nat) (z : Z) : bool :=
  (List.length (zero_padded width z) =? width)%nat
  && forallb is_digit (zero_padded width z).

(** The shape [YYYY-MM-DD]: ten characters, digits around two hyphens. *)
Definition iso_date (s : str) : bool :=
  match s with
  | [y1; y2; y3; y4; h1; m1; m2; h2; d1; d2] =>
      forallb is_digit [y1; y2; y3; y4; m1; m2; d1; d2]
      && (h1 =? 45)%N && (h2 =? 45)%N
  | _ => false
  end.

(** Ordinals of 1000-01-01 and of 9999-12-31, between which [%Y] prints four
    digits on every platform. *)
Definition ordinal_1000_01_01 : Z := 364878.
Definition ordinal_9999_12_31 : Z := 3652059.

(* ================================================================== *)
(** * Sample surroundings, for running the script on concrete inputs *)
(* ================================================================== *)

(** A printer that agrees with [float.__repr__] on the values the samples
    hold: finite integral floats below 10^16 in magnitude print as their
    digits followed by [.0]. *)
Definition floatstr_integral (f : float) : str :=
  match Prim2SF f with
  | S754_zero s => if s then lit "-0.0" else lit "0.0"
  | S754_infinity s => if s then lit "-Infinity" else lit "Infinity"
  | S754_nan => lit "NaN"
  | S754_finite s m e =>
      (if s then lit "-" else [])
      ++ int_repr (if 0 <=? e then Zpos m * 2 ^ e else Zpos m / 2 ^ (- e))
      ++ lit ".0"
  end.

(** Three deposits of 100, 600 and 3200 by three users. *)
Definition sample_transactions : list PostedTransaction :=
  [ {| PRN := Some (lit "u1"); TRANSACTION_AMOUNT := Some 100%float |};
    {| PRN := Some (lit "u2"); TRANSACTION_AMOUNT := Some 600%float |};
    {| PRN := Some (lit "u3"); TRANSACTION_AMOUNT := Some 3200%float |} ].

(** The bucket rows of those deposits, in an order the engine might use. *)
Definition sample_bucket_rows : list (str * Z) :=
  [(lit "$2,500+", 1); (lit "$1-$250", 1); (lit "$500-$750", 1)].

Definition sample_conn : Connection :=
  {| exec_summary := fun _ _ => inr (sql_summary sample_transactions);
     exec_buckets := fun _ _ => inr sample_bucket_rows;
     exec_top_by_frequency := fun _ _ =>
       inr [(lit "  Acme Payroll ", 2, Some 3800%float);
            (lit "Globex", 1, Some 100%float)];
     exec_top_by_volume := fun _ _ =>
       inr [(lit "  Acme Payroll ", 2, Some 3800%float);
            (lit "Globex", 1, Some 100%float)] |}.

(** A table without any deposit: every range selects no row. *)
Definition empty_conn : Connection :=
  {| exec_summary := fun _ _ => inr (sql_summary []);
     exec_buckets := fun _ _ => inr [];
     exec_top_by_frequency := fun _ _ => inr [];
     exec_top_by_volume := fun _ _ => inr [] |}.

Definition session_expired : exn :=
  DatabaseError (lit "390114: Authentication token has expired").

(** Like [sample_conn], but the last statement of the October range fails. *)
Definition flaky_conn : Connection :=
  {| exec_summary := exec_summary sample_conn;
     exec_buckets := exec_buckets sample_conn;
     exec_top_by_frequency := exec_top_by_frequency sample_conn;
     exec_top_by_volume := fun start_date end_date =>
       if str_eqb start_date (lit "2025-10-01") then inl session_expired
       else exec_top_by_volume sample_conn start_date end_date |}.

(** Like [sample_conn], with a bucket label the script does not list. *)
Definition odd_label_conn : Connection :=
  {| exec_summary := exec_summary sample_conn;
     exec_buckets := fun _ _ => inr [(lit "$1-$250", 1); (lit "$0-$1", 2)];
     exec_top_by_frequency := exec_top_by_frequency sample_conn;
     exec_top_by_volume := exec_top_by_volume sample_conn |}.

(** 2025-11-03. *)
Definition sample_today : Z := 739558.

Definition sample_env : Env :=
  {| now_ordinal := sample_today; snowflake := inr sample_conn |}.
Definition empty_env : Env :=
  {| now_ordinal := sample_today; snowflake := inr empty_conn |}.
Definition flaky_env : Env :=
  {| now_ordinal := sample_today; snowflake := inr flaky_conn |}.
Definition offline_env : Env :=
  {| now_ordinal := sample_today;
     snowflake := inl (DatabaseError (lit "250001: Could not connect")) |}.

(** An artifact with text around the block, and a brace pair that looks like
    the closing marker before the block. *)
Definition sample_pre : str :=
  lit "<style>p {        };</style><script>        ".
Definition sample_old : str := lit " stale: 1".
Definition sample_post : str := lit "        render();</script>".
Definition sample_html : str :=
  sample_pre ++ start_marker ++ sample_old ++ end_marker ++ sample_post.
Definition sample_world : world := mkWorld (Some sample_html) 0.

(** An artifact whose block was minified: no closing marker after the
    opening one. *)
Definition truncated_html : str := lit "<script>const dataCache = {};</script>".
Definition truncated_world : world := mkWorld (Some truncated_html) 0.

Definition sample_summary : SummaryStats :=
  {| uniqueUsers := 3; totalTransactions := 3;
     totalVolume := 3900%float; avgDeposit := 1300%float |}.

Definition sample_snapshot (institution : str) : RangeSnapshot :=
  {| summary := sample_summary;
     buckets := [ {| bucket_range := lit "$1-$250"; bucket_count := 1 |};
                  {| bucket_range := lit "$500-$750"; bucket_count := 1 |};
                  {| bucket_range := lit "$2,500+"; bucket_count := 1 |} ];
     topByFrequency :=
       [ {| inst_name := institution; inst_count := 3;
            inst_volume := 3900%float |} ];
     topByVolume :=
       [ {| inst_name := institution; inst_count := 3;
            inst_volume := 3900%float |} ] |}.

Definition sample_cache : Cache :=
  [(lit "2025-08-01_2025-08-31", sample_snapshot (lit "Acme Payroll"))].

(** The same cache for an institution whose name holds the text of the
    closing marker. *)
Definition hostile_cache : Cache :=
  [(lit "2025-08-01_2025-08-31", sample_snapshot (lit "A        };B"))].

(** The cache a run builds in [sample_env]. *)
Definition sample_built_cache : Cache :=
  match fst (query_all_data sample_env world0) with
  | inr c => c
  | inl _ => []
  end.

(* ================================================================== *)
(** * Further notions: the statements behind the queries, trimmed names,
      key order, characters of the block *)
(* ================================================================== *)

(** No whitespace at either end. *)
Definition trimmed (s : str) : Prop :=
  (forall c rest, s = c :: rest -> isspace c = false)
  /\ (forall front c, s = front ++ [c] -> isspace c = false).

(** What the list comprehension of the two top-10 queries makes of a row. *)
Definition institution_matches (r : str * Z * option float) (i : InstitutionAgg)
  : Prop :=
  inst_name i = strip (fst (fst r))
  /\ inst_count i = snd (fst r)
  /\ snd r = Some (inst_volume i).

Definition institutions_outcome (rows : list (str * Z * option float))
  (result : exn + list InstitutionAgg) : Prop :=
  (Forall (fun r => snd r <> None) rows ->
   exists insts,
     result = inr insts
     /\ Forall2 institution_matches rows insts
     /\ Forall (fun i => trimmed (inst_name i)) insts)
  /\ (Exists (fun r => snd r = None) rows -> result = inl TypeError).

(** The CASE expression of the bucket statement. A comparison with NULL is
    not true, so a NULL amount reaches the ELSE branch, as does a negative
    one. *)
Definition sql_bucket (amount : option float) : str :=
  match amount with
  | None => lit "$2,500+"
  | Some a =>
      if PrimFloat.leb 0 a && PrimFloat.ltb a 250 then lit "$1-$250"
      else if PrimFloat.leb 250 a && PrimFloat.ltb a 500 then lit "$250-$500"
      else if PrimFloat.leb 500 a && PrimFloat.ltb a 750 then lit "$500-$750"
      else if PrimFloat.leb 750 a && PrimFloat.ltb a 1000 then lit "$750-$1,000"
      else if PrimFloat.leb 1000 a && PrimFloat.ltb a 1500 then lit "$1,000-$1,500"
      else if PrimFloat.leb 1500 a && PrimFloat.ltb a 2500 then lit "$1,500-$2,500"
      else lit "$2,500+"
  end.

(** [COUNT( * )] of the group of [label]. *)
Definition bucket_size (matching : list PostedTransaction) (label : str) : Z :=
  Z.of_nat (List.length
              (filter (fun t => str_eqb (sql_bucket (TRANSACTION_AMOUNT t)) label)
                      matching)).

(** [GROUP BY bucket]: one row per label that occurs. The rows are listed
    here as [bucket_order] has them; the order the engine gives them
    ([ORDER BY MIN(...)]) is left open. *)
Definition sql_bucket_rows (matching : list PostedTransaction) : list (str * Z) :=
  List.map (fun label => (label, bucket_size matching label))
           (filter (fun label => 0 <? bucket_size matching label) bucket_order).

Definition total_count (bs : list Bucket) : Z :=
  fold_right Z.add 0 (List.map bucket_count bs).

(** The keys of [l] in the order of their first occurrence. *)
Fixpoint first_occurrences (l : list str) : list str :=
  match l with
  | [] => []
  | k :: l' => k :: filter (fun k' => negb (str_eqb k k')) (first_occurrences l')
  end.

Definition is_key {V} (d : dict V) (k : str) : bool :=
  existsb (str_eqb k) (dict_keys d).

(** Every string (key or value) of [j] satisfies [Q], every float [F]. *)
Fixpoint json_all (Q : str -> Prop) (F : float -> Prop) (j : json) : Prop :=
  match j with
  | JInt _ => True
  | JFloat f => F f
  | JStr s => Q s
  | JList items => fold_right (fun x acc => json_all Q F x /\ acc) True items
  | JDict items =>
      fold_right (fun kv acc => Q (fst kv) /\ json_all Q F (snd kv) /\ acc)
                 True items
  end.

(** The characters [json.dumps] writes by itself: brackets, braces, comma,
    colon, space, newline, digits and the minus sign. *)
Definition structural (c : char) : Prop :=
  In c [91; 93; 123; 125; 44; 58; 32; 10; 45;
        48; 49; 50; 51; 52; 53; 54; 55; 56; 57]%N.

(** A newline or a printable ASCII character. *)
Definition ascii_text (c : char) : Prop := (c = 10 \/ 32 <= c <= 126)%N.

Definition semicolon : char := 59%N.

(** The keys of the dict literals of [query_summary_stats], [query_buckets],
    the two top-10 queries and [query_all_data]. *)
Definition field_names : list str :=
  [lit "uniqueUsers"; lit "totalTransactions"; lit "totalVolume";
   lit "avgDeposit"; lit "range"; lit "count"; lit "name"; lit "volume";
   lit "summary"; lit "buckets"; lit "topByFrequency"; lit "topByVolume"].

(** The strings a snapshot carries from the data source. *)
Definition snapshot_strings (r : RangeSnapshot) : list str :=
  List.map bucket_range (buckets r)
  ++ List.map inst_name (topByFrequency r)
  ++ List.map inst_name (topByVolume r).

(** The range keys, bucket labels and institution names of a cache. *)
Definition cache_strings (c : Cache) : list str :=
  flat_map (fun kv => fst kv :: snapshot_strings (snd kv)) c.

(** No institution name that the connection returns holds a semicolon. *)
Definition names_without_semicolon (conn : Connection) : Prop :=
  forall s e rows,
    exec_top_by_frequency conn s e = inr rows
    \/ exec_top_by_volume conn s e = inr rows ->
    Forall (fun r => ~ In semicolon (fst (fst r))) rows.

(** The data source answers all four statements of a range in a way the
    script can convert. *)
Definition range_convertible (conn : Connection) (s e : str) : Prop :=
  (exists users transactions volume avg,
     exec_summary conn s e = inr (users, transactions, Some volume, Some avg))
  /\ (exists rows,
        exec_buckets conn s e = inr rows
        /\ Forall (fun r => In (fst r) bucket_order) rows)
  /\ (exists rows,
        exec_top_by_frequency conn s e = inr rows
        /\ Forall (fun r => snd r <> None) rows)
  /\ (exists rows,
        exec_top_by_volume conn s e = inr rows
        /\ Forall (fun r => snd r <> None) rows).

(** 2025-08-31, when the last 30 days are exactly August 2025. *)
Definition month_end_today : Z := 739494.
Definition month_end_env : Env :=
  {| now_ordinal := month_end_today; snowflake := inr sample_conn |}.

(** The cache a run builds in [month_end_env]. *)
Definition month_end_cache : Cache :=
  match fst (query_all_data month_end_env world0) with
  | inr c => c
  | inl _ => []
  end.

(** The world a run in [sample_env] leaves from [sample_world]. *)
Definition sample_updated_world : world :=
  mkWorld (Some (sample_pre
                 ++ new_data_cache floatstr_integral sample_built_cache
                 ++ sample_post)) 0.

(* ================================================================== *)
(** * The artifact on disk: text-mode [open] *)
(* ================================================================== *)

(** [open(html_path, 'r')] and [open(html_path, 'w')] open the file in text
    mode with the default [newline=None]. The content of the file is taken
    as its decoded characters: decoding and encoding with the one locale
    codec give the bytes back, and for an ASCII file the characters are the
    bytes. *)

Definition CR : char := 13%N.
Definition LF : char := 10%N.

(** Reading: a CR LF pair and a lone CR both come out as one LF. *)
Fixpoint read_newlines (raw : str) : str :=
  match raw with
  | [] => []
  | c :: rest =>
      if (c =? CR)%N then
        match rest with
        | d :: rest' =>
            if (d =? LF)%N then LF :: read_newlines rest'
            else LF :: read_newlines rest
        | [] => [LF]
        end
      else c :: read_newlines rest
  end.

(** Writing: every LF goes out as [os.linesep]. *)
Definition write_newlines (linesep : str) (text : str) : str :=
  flat_map (fun c => if (c =? LF)%N then linesep else [c]) text.

(** [os.linesep] on POSIX systems and on Windows. *)
Definition posix_linesep : str := [LF].
Definition windows_linesep : str := [CR; LF].

Section InjectorOnDisk.

Variable floatstr : float -> str.
Variable linesep : str.

(** [update_html_file] from file to file: [f.read()] hands the injector the
    content with its line ends translated, [f.write] translates the line
    ends of the new text. When the injector raises, the file was only read. *)
Definition update_html_file_on_disk (data_cache : Cache) (disk : option str)
  : (exn + unit) * option str :=
  let w := mkWorld (option_map read_newlines disk) 0 in
  match update_html_file floatstr data_cache w with
  | (inl err, _) => (inl err, disk)
  | (inr tt, w') => (inr tt, option_map (write_newlines linesep) (index_html w'))
  end.

End InjectorOnDisk.

(** An artifact with Windows line ends. *)
Definition crlf_pre : str := lit "<script>" ++ [CR; LF] ++ lit "        ".
Definition crlf_old : str := lit " stale: 1" ++ [CR; LF].
Definition crlf_post : str := [CR; LF] ++ lit "</script>" ++ [CR; LF].
Definition crlf_html : str :=
  crlf_pre ++ start_marker ++ crlf_old ++ end_marker ++ crlf_post.

(* ================================================================== *)
(** * Facts about the built-ins *)
(* ================================================================== *)

Lemma str_eqb_eq a b : str_eqb a b = true <-> a = b.
Proof.
  revert b. induction a as [|x a IH]; intros [|y b]; simpl; split;
    try easy.
  - intros H. apply andb_prop in H. destruct H as [Hx Ha].
    apply N.eqb_eq in Hx. apply IH in Ha. now subst.
  - intros [= -> ->]. rewrite N.eqb_refl. now apply IH.
Qed.

Lemma str_eqb_refl a : str_eqb a a = true.
Proof. now apply str_eqb_eq. Qed.

Lemma str_eqb_neq a b : str_eqb a b = false <-> a <> b.
Proof.
  split.
  - intros H E. apply str_eqb_eq in E. congruence.
  - intros H. destruct (str_eqb a b) eqn:E; [|reflexivity].
    apply str_eqb_eq in E. contradiction.
Qed.

Lemma index_none l x : index l x = None <-> ~ In x l.
Proof.
  induction l as [|y l IH]; simpl.
  - tauto.
  - destruct (str_eqb y x) eqn:E.
    + apply str_eqb_eq in E. split; [discriminate | intros H; elim H; now left].
    + apply str_eqb_neq in E. destruct (index l x); simpl.
      * split; [discriminate|]. intros H.
        assert (Hn : ~ In x l) by (intros Hin; apply H; now right).
        apply IH in Hn. discriminate.
      * split; [|reflexivity]. intros _ [H|H]; [contradiction|].
        now apply (proj1 IH eq_refl).
Qed.

Lemma index_some l x : In x l -> exists i, index l x = Some i.
Proof.
  intros H. destruct (index l x) as [i|] eqn:E; [now exists i|].
  apply index_none in E. contradiction.
Qed.

(** ** Searching and slicing *)

Section SearchFacts.

Implicit Types (sub s a b c : str) (pos p : Z).

Lemma len_app a b : len (a ++ b) = len a + len b.
Proof. unfold len. rewrite length_app. lia. Qed.

Lemma len_nonneg s : 0 <= len s.
Proof. unfold len. lia. Qed.

Lemma startswith_app sub s : startswith sub (sub ++ s) = true.
Proof.
  induction sub as [|x sub IH]; simpl; [reflexivity|].
  now rewrite N.eqb_refl, IH.
Qed.

Lemma startswith_split sub s :
  startswith sub s = true -> exists rest, s = sub ++ rest.
Proof.
  revert s. induction sub as [|x sub IH]; intros s H.
  - now exists s.
  - destruct s as [|y s]; simpl in H; [discriminate|].
    apply andb_prop in H. destruct H as [Hxy H].
    apply N.eqb_eq in Hxy. subst y.
    destruct (IH _ H) as [rest ->]. now exists rest.
Qed.

Lemma startswith_app_short sub a b c :
  (List.length sub <= List.length a)%nat ->
  startswith sub (a ++ b) = startswith sub (a ++ c).
Proof.
  revert a. induction sub as [|x sub IH]; intros a Hlen; [reflexivity|].
  destruct a as [|y a]; simpl in *; [lia|].
  rewrite (IH a) by lia. reflexivity.
Qed.

Lemma find_from_cons sub x s pos :
  find_from sub (x :: s) pos =
  if startswith sub (x :: s) then Some pos else find_from sub s (pos + 1).
Proof. reflexivity. Qed.

Lemma find_from_shift sub s pos d :
  find_from sub s (pos + d) = option_map (fun p => p + d) (find_from sub s pos).
Proof.
  revert pos. induction s as [|x s IH]; intros pos; simpl.
  - destruct (startswith sub []); reflexivity.
  - destruct (startswith sub (x :: s)); [reflexivity|].
    replace (pos + d + 1) with (pos + 1 + d) by lia. apply IH.
Qed.

Lemma find_from_bounds sub s pos p :
  find_from sub s pos = Some p -> pos <= p <= pos + len s.
Proof.
  revert pos. induction s as [|x s IH]; intros pos; simpl.
  - destruct (startswith sub []); [|discriminate].
    intros [= <-]. unfold len; simpl; lia.
  - destruct (startswith sub (x :: s)).
    + intros [= <-]. pose proof (len_nonneg (x :: s)). lia.
    + intros H. apply IH in H. unfold len in *. simpl List.length.
      lia.
Qed.

(** A hit at [p] is an occurrence: the text splits at [p] and [sub] follows. *)
Lemma find_from_split sub s pos p :
  find_from sub s pos = Some p ->
  exists pre rest, s = pre ++ sub ++ rest /\ len pre = p - pos.
Proof.
  revert pos. induction s as [|x s IH]; intros pos; simpl.
  - destruct (startswith sub []) eqn:E; [|discriminate].
    intros [= <-]. apply startswith_split in E. destruct E as [rest E].
    exists [], rest. split; [exact E|]. unfold len; simpl; lia.
  - destruct (startswith sub (x :: s)) eqn:E.
    + intros [= <-]. apply startswith_split in E. destruct E as [rest E].
      exists [], rest. split; [exact E|]. unfold len; simpl; lia.
    + intros H. apply IH in H. destruct H as (pre & rest & -> & Hlen).
      exists (x :: pre), rest. split; [reflexivity|].
      unfold len in *. simpl List.length. lia.
Qed.

(** The scan only looks at the text up to the end of the hit: whatever
    follows can be replaced. *)
Lemma find_from_stable sub a b c pos p :
  find_from sub (a ++ b) pos = Some p ->
  p - pos + len sub <= len a ->
  find_from sub (a ++ c) pos = Some p.
Proof.
  revert pos. induction a as [|x a IH]; intros pos H Hle.
  - pose proof (find_from_bounds _ _ _ _ H) as Hb.
    assert (sub = []) as ->.
    { destruct sub; [reflexivity|]. unfold len in Hle. simpl in Hle. lia. }
    assert (p = pos) as -> by (unfold len in Hle; simpl in Hle; lia).
    simpl. destruct c; reflexivity.
  - assert (Hs : len sub <= len (x :: a) ->
                 startswith sub (x :: a ++ c) = startswith sub (x :: a ++ b)).
    { intros Hl. apply (startswith_app_short sub (x :: a) c b).
      unfold len in Hl. lia. }
    rewrite <- app_comm_cons, find_from_cons in H |- *.
    destruct (startswith sub (x :: a ++ b)) eqn:E.
    + injection H as <-. rewrite Hs by lia. reflexivity.
    + pose proof (find_from_bounds _ _ _ _ H) as Hb.
      assert (len (x :: a) = len a + 1) as Hl
          by (unfold len; simpl List.length; lia).
      rewrite Hs by lia. apply IH; [exact H | lia].
Qed.

Lemma clamp_index_inside s i : 0 <= i <= len s -> clamp_index s i = i.
Proof.
  intros H. unfold clamp_index.
  destruct (i <? 0) eqn:E; [apply Z.ltb_lt in E; lia|]. lia.
Qed.

Lemma find_inside s sub start :
  0 <= start <= len s ->
  find s sub start =
  match find_from sub (skipn (Z.to_nat start) s) start with
  | Some p => p
  | None => -1
  end.
Proof.
  intros H. unfold find.
  destruct (len s <? start) eqn:E; [apply Z.ltb_lt in E; lia|].
  now rewrite clamp_index_inside.
Qed.

Lemma find_0 s sub :
  find s sub 0 = match find_from sub s 0 with Some p => p | None => -1 end.
Proof. rewrite find_inside; [reflexivity|]. pose proof (len_nonneg s). lia. Qed.

Lemma skipn_len_app a b : skipn (Z.to_nat (len a)) (a ++ b) = b.
Proof.
  unfold len. rewrite Nat2Z.id. rewrite skipn_app, skipn_all, Nat.sub_diag.
  reflexivity.
Qed.

Lemma firstn_len_app a b : firstn (Z.to_nat (len a)) (a ++ b) = a.
Proof.
  unfold len. rewrite Nat2Z.id. rewrite firstn_app, firstn_all, Nat.sub_diag.
  simpl. apply app_nil_r.
Qed.

Lemma slice_to_len_app a b : slice_to (a ++ b) (len a) = a.
Proof.
  unfold slice_to. rewrite clamp_index_inside.
  - apply firstn_len_app.
  - rewrite len_app. pose proof (len_nonneg a). pose proof (len_nonneg b). lia.
Qed.

Lemma slice_from_len_app a b : slice_from (a ++ b) (len a) = b.
Proof.
  unfold slice_from. rewrite clamp_index_inside.
  - apply skipn_len_app.
  - rewrite len_app. pose proof (len_nonneg a). pose proof (len_nonneg b). lia.
Qed.

Lemma slice_to_drop_last a x : slice_to (a ++ [x]) (-1) = a.
Proof.
  unfold slice_to, clamp_index. simpl (-1 <? 0).
  rewrite len_app. replace (len [x]) with 1 by reflexivity.
  replace (Z.max (len a + 1 + -1) 0) with (len a)
    by (pose proof (len_nonneg a); lia).
  apply firstn_len_app.
Qed.

(** [find] with a start inside the text, when the text is split there. *)
Lemma find_at_split a b sub :
  find (a ++ b) sub (len a) =
  match find_from sub b 0 with Some p => len a + p | None => -1 end.
Proof.
  rewrite find_inside.
  - rewrite skipn_len_app.
    replace (len a) with (0 + len a) at 1 by lia.
    rewrite find_from_shift. destruct (find_from sub b 0); simpl; [lia|reflexivity].
  - rewrite len_app. pose proof (len_nonneg a). pose proof (len_nonneg b). lia.
Qed.

End SearchFacts.

(** ** The two markers *)

Lemma len_start_marker : len start_marker = 19.
Proof. reflexivity. Qed.

Lemma len_end_marker : len end_marker = 10.
Proof. reflexivity. Qed.

(** The closing marker cannot begin inside the opening marker. *)
Lemma find_from_end_past_start rest pos :
  find_from end_marker (start_marker ++ rest) pos
  = find_from end_marker rest (pos + 19).
Proof.
  unfold start_marker, end_marker. cbn.
  f_equal. lia.
Qed.

Lemma clamp_index_nonneg s i : 0 <= clamp_index s i.
Proof.
  unfold clamp_index. pose proof (len_nonneg s).
  destruct (i <? 0) eqn:E; [lia|]. apply Z.ltb_ge in E. lia.
Qed.

Lemma find_lower_bound s sub start : -1 <= find s sub start.
Proof.
  unfold find. destruct (len s <? start); [lia|].
  destruct (find_from _ _ _) as [p|] eqn:E; [|lia].
  apply find_from_bounds in E. pose proof (clamp_index_nonneg s start). lia.
Qed.

(** Where [find] reports the opening marker, the text splits around it. *)
Lemma start_marker_found html :
  find html start_marker 0 <> -1 ->
  exists pre rest,
    html = pre ++ start_marker ++ rest
    /\ len pre = find html start_marker 0
    /\ find_from start_marker html 0 = Some (len pre).
Proof.
  rewrite find_0. destruct (find_from start_marker html 0) as [p|] eqn:E;
    [intros _ | intros H; now elim H].
  destruct (find_from_split _ _ _ _ E) as (pre & rest & Hhtml & Hlen).
  exists pre, rest. repeat split; [exact Hhtml | lia |].
  f_equal. lia.
Qed.

(** The search for the closing marker, on a text split at the opening
    marker. *)
Lemma end_marker_search pre rest :
  find (pre ++ start_marker ++ rest) end_marker (len pre) =
  match find_from end_marker rest 0 with
  | Some q => len pre + len start_marker + q
  | None => -1
  end.
Proof.
  rewrite find_at_split, find_from_end_past_start.
  replace (0 + 19) with (0 + len start_marker) by reflexivity.
  rewrite find_from_shift.
  destruct (find_from end_marker rest 0); simpl; [lia | reflexivity].
Qed.

Lemma find_from_end_past_tail rest pos :
  find_from end_marker (skipn 1 start_marker ++ rest) pos
  = find_from end_marker rest (pos + 18).
Proof. unfold start_marker, end_marker. cbn. f_equal. lia. Qed.

(** The same search started one character further. *)
Lemma end_marker_search_next pre rest :
  find (pre ++ start_marker ++ rest) end_marker (len pre + 1) =
  match find_from end_marker rest 0 with
  | Some q => len pre + len start_marker + q
  | None => -1
  end.
Proof.
  change start_marker with ([99%N] ++ skipn 1 start_marker).
  rewrite <- (app_assoc [99%N]), (app_assoc pre [99%N]).
  replace (len pre + 1) with (len (pre ++ [99%N]))
    by (rewrite len_app; reflexivity).
  rewrite find_at_split, find_from_end_past_tail, find_from_shift, !len_app.
  destruct (find_from end_marker rest 0); simpl; [|reflexivity].
  change (len [99%N]) with 1. change (len (skipn 1 start_marker)) with 18.
  lia.
Qed.

(* ================================================================== *)
(** * Facts about the injector *)
(* ================================================================== *)

Section InjectorFacts.

Variable floatstr : float -> str.

Lemma dumps_dict_braces indent items :
  exists body,
    dumps floatstr indent (JDict items) = lit "{" ++ body ++ lit "}".
Proof.
  destruct items as [|kv items].
  - exists []. reflexivity.
  - eexists (newline_indent indent 1 ++ join _ _ ++ newline_indent indent 0).
    unfold dumps. cbn [dumps_level]. rewrite <- !app_assoc. reflexivity.
Qed.

(** The block the injector writes: the opening marker, the serialization
    without its two outer braces, the closing marker. *)
Lemma new_data_cache_shape cache :
  exists body,
    dumps floatstr 12 (json_of_cache cache) = lit "{" ++ body ++ lit "}"
    /\ new_data_cache floatstr cache = start_marker ++ body ++ end_marker.
Proof.
  destruct (dumps_dict_braces 12
              (List.map (fun kv => (fst kv, json_of_snapshot (snd kv))) cache))
    as [body Hbody].
  exists body. split; [exact Hbody|].
  unfold new_data_cache, json_of_cache. rewrite Hbody.
  change (lit "}") with [125%N].
  rewrite (app_assoc (lit "{") body [125%N]), slice_to_drop_last.
  reflexivity.
Qed.

Lemma update_html_file_found cache w html :
  index_html w = Some html ->
  find html start_marker 0 <> -1 ->
  update_html_file floatstr cache w =
  (inr tt,
   mkWorld (Some (slice_to html (find html start_marker 0)
                  ++ new_data_cache floatstr cache
                  ++ slice_from html
                       (find html end_marker (find html start_marker 0)
                        + len end_marker)))
           (open_connections w)).
Proof.
  intros Hfile Hstart. unfold update_html_file. rewrite Hfile.
  apply Z.eqb_neq in Hstart. rewrite Hstart.
  pose proof (find_lower_bound html end_marker (find html start_marker 0)) as Hlb.
  rewrite len_end_marker in *.
  destruct (_ + 10 =? -1) eqn:E; [apply Z.eqb_eq in E; lia|].
  reflexivity.
Qed.

Lemma update_html_file_no_start cache w html :
  index_html w = Some html ->
  find html start_marker 0 = -1 ->
  update_html_file floatstr cache w = (inl malformed_artifact, w).
Proof.
  intros Hfile Hstart. unfold update_html_file. rewrite Hfile, Hstart.
  reflexivity.
Qed.

End InjectorFacts.

(** Running the injector on a text that already holds the block for
    [cache], at the place of the first opening marker, changes nothing,
    provided the first closing marker inside the block is the one that
    ends it. *)
Lemma update_html_file_fixpoint (floatstr : float -> str) cache pre rest post n :
  find_from start_marker (pre ++ start_marker ++ rest) 0 = Some (len pre) ->
  find (new_data_cache floatstr cache) end_marker 0
  = len (new_data_cache floatstr cache) - len end_marker ->
  update_html_file floatstr cache
    (mkWorld (Some (pre ++ new_data_cache floatstr cache ++ post)) n)
  = (inr tt, mkWorld (Some (pre ++ new_data_cache floatstr cache ++ post)) n).
Proof.
  intros Hstart Hblock.
  destruct (new_data_cache_shape floatstr cache) as (body & _ & Hn).
  set (block := new_data_cache floatstr cache) in *.
  assert (Hs : find (pre ++ block ++ post) start_marker 0 = len pre).
  { rewrite find_0, Hn, <- !app_assoc.
    rewrite (app_assoc pre start_marker) in Hstart |- *.
    rewrite (find_from_stable _ _ _ (body ++ end_marker ++ post) _ _ Hstart);
      [reflexivity|].
    rewrite len_app. lia. }
  assert (Hlb : len start_marker + len end_marker <= len block).
  { rewrite Hn, !len_app. pose proof (len_nonneg body). lia. }
  assert (He : find (pre ++ block ++ post) end_marker (len pre)
               = len pre + (len block - len end_marker)).
  { rewrite find_at_split.
    rewrite find_0 in Hblock.
    destruct (find_from end_marker block 0) as [p|] eqn:E.
    - subst p.
      assert (E' : find_from end_marker (block ++ []) 0
                   = Some (len block - len end_marker))
        by (rewrite app_nil_r; exact E).
      rewrite (find_from_stable _ _ _ post _ _ E'); [reflexivity | lia].
    - rewrite len_start_marker, len_end_marker in *. lia. }
  erewrite update_html_file_found; [| reflexivity |].
  - cbn [open_connections]. rewrite Hs, He. do 3 f_equal.
    rewrite slice_to_len_app. do 2 f_equal.
    replace (len pre + (len block - len end_marker) + len end_marker)
      with (len (pre ++ block)) by (rewrite len_app; lia).
    rewrite (app_assoc pre block post). apply slice_from_len_app.
  - rewrite Hs. pose proof (len_nonneg pre). lia.
Qed.

(* ================================================================== *)
(** * Facts about sorting and the bucket query *)
(* ================================================================== *)

Section Sorting.

Context {A : Type}.
Implicit Types (l : list (nat * A)).

Lemma insert_keyed_perm k x l : Permutation (insert_keyed k x l) ((k, x) :: l).
Proof.
  induction l as [|[k' y] l IH]; simpl; [reflexivity|].
  destruct (k <=? k')%nat; [reflexivity|].
  rewrite IH. apply perm_swap.
Qed.

Lemma sort_keyed_perm l : Permutation (sort_keyed l) l.
Proof.
  induction l as [|[k x] l IH]; simpl; [reflexivity|].
  rewrite insert_keyed_perm. now constructor.
Qed.

Lemma insert_keyed_sorted k x l :
  StronglySorted key_le l -> StronglySorted key_le (insert_keyed k x l).
Proof.
  induction l as [|[k' y] l IH]; intros Hs; simpl.
  - constructor; constructor.
  - destruct (k <=? k')%nat eqn:E.
    + apply Nat.leb_le in E. constructor; [exact Hs|].
      inversion Hs as [|? ? Hs' Hall]; subst.
      constructor; [exact E|].
      eapply Forall_impl; [|exact Hall].
      intros [k2 z] H. unfold key_le in *. simpl in *. lia.
    + apply Nat.leb_gt in E.
      inversion Hs as [|? ? Hs' Hall]; subst.
      constructor; [now apply IH|].
      eapply Permutation_Forall; [symmetry; apply insert_keyed_perm|].
      constructor; [unfold key_le; simpl; lia | exact Hall].
Qed.

Lemma sort_keyed_sorted l : StronglySorted key_le (sort_keyed l).
Proof.
  induction l as [|[k x] l IH]; simpl; [constructor|].
  now apply insert_keyed_sorted.
Qed.

Lemma sort_keys_total (key : A -> exn + nat) (k : A -> nat) (xs : list A) :
  Forall (fun x => key x = inr (k x)) xs ->
  sort_keys key xs = inr (List.map (fun x => (k x, x)) xs).
Proof.
  induction 1 as [|x xs Hx _ IH]; simpl; [reflexivity|].
  now rewrite Hx, IH.
Qed.

Lemma sort_keys_raises (key : A -> exn + nat) (xs : list A) :
  Exists (fun x => exists e, key x = inl e) xs ->
  exists x e, In x xs /\ key x = inl e /\ sort_keys key xs = inl e.
Proof.
  induction xs as [|x xs IH]; intros H; [inversion H|].
  simpl. destruct (key x) as [e|k] eqn:E.
  - exists x, e. repeat split; [now left | exact E].
  - inversion H as [? ? [e He]|? ? H']; subst; [congruence|].
    destruct (IH H') as (y & e & Hin & Hy & Hsort).
    exists y, e. rewrite Hsort. repeat split; [now right | exact Hy].
Qed.

End Sorting.

Lemma StronglySorted_weaken {A} (R R' : A -> A -> Prop) (l : list A) :
  (forall a b, In a l -> In b l -> R a b -> R' a b) ->
  StronglySorted R l -> StronglySorted R' l.
Proof.
  intros HR Hs. induction Hs as [|a l Hs IH Hall]; constructor.
  - apply IH. intros x y Hx Hy. apply HR; now right.
  - rewrite Forall_forall in *. intros b Hb.
    apply HR; [now left | now right | now apply Hall].
Qed.

Lemma StronglySorted_map {A B} (f : A -> B) (R : B -> B -> Prop) (l : list A) :
  StronglySorted (fun a b => R (f a) (f b)) l -> StronglySorted R (List.map f l).
Proof.
  induction 1 as [|a l Hs IH Hall]; simpl; constructor; [exact IH|].
  rewrite Forall_forall in *. intros b Hb.
  apply in_map_iff in Hb. destruct Hb as (x & <- & Hx). now apply Hall.
Qed.

Lemma index_bound l x i : index l x = Some i -> (i < List.length l)%nat.
Proof.
  revert i. induction l as [|y l IH]; intros i; simpl; [discriminate|].
  destruct (str_eqb y x); [intros [= <-]; lia|].
  destruct (index l x) as [j|]; simpl; [|discriminate].
  intros [= <-]. specialize (IH j eq_refl). lia.
Qed.

Lemma lower_bounds_ascending i j :
  (i <= j < 7)%nat ->
  nth i [0; 250; 500; 750; 1000; 1500; 2500] 0
  <= nth j [0; 250; 500; 750; 1000; 1500; 2500] 0.
Proof.
  intros H.
  do 7 (destruct i as [|i];
        [do 7 (destruct j as [|j]; [simpl; lia|]); lia|]).
  lia.
Qed.

Lemma bucket_key_known b :
  In (bucket_range b) bucket_order -> bucket_key b = inr (bucket_rank b).
Proof.
  intros H. unfold bucket_key, bucket_rank, label_rank.
  destruct (index_some _ _ H) as [i ->]. reflexivity.
Qed.

Lemma bucket_key_unknown b :
  ~ In (bucket_range b) bucket_order ->
  bucket_key b = inl (ValueError_index (bucket_range b)).
Proof.
  intros H. unfold bucket_key. apply index_none in H. now rewrite H.
Qed.

Lemma bucket_rank_le a b :
  In (bucket_range a) bucket_order -> In (bucket_range b) bucket_order ->
  (bucket_rank a <= bucket_rank b)%nat -> bucket_le a b.
Proof.
  intros Ha Hb. unfold bucket_rank, label_rank, bucket_le, bucket_lower_bound.
  destruct (index_some _ _ Ha) as [i Hi]. destruct (index_some _ _ Hb) as [j Hj].
  rewrite Hi, Hj. simpl. intros Hij.
  apply index_bound in Hj. apply lower_bounds_ascending.
  change (List.length bucket_order) with 7%nat in Hj. lia.
Qed.

(** What [query_buckets] returns when every label is known. *)
Lemma query_buckets_ok conn s e rows w :
  exec_buckets conn s e = inr rows ->
  Forall (fun r => In (fst r) bucket_order) rows ->
  query_buckets conn s e w =
  (inr (List.map snd
          (sort_keyed (List.map (fun x => (bucket_rank x, x))
                                (List.map bucket_of_row rows)))), w).
Proof.
  intros Hrows Hall. unfold query_buckets, bind, lift. rewrite Hrows.
  unfold list_sort.
  rewrite (sort_keys_total bucket_key bucket_rank).
  - reflexivity.
  - rewrite Forall_forall in *. intros b Hb. apply in_map_iff in Hb.
    destruct Hb as (r & <- & Hr). apply bucket_key_known. now apply Hall.
Qed.

Lemma query_buckets_raises conn s e rows w :
  exec_buckets conn s e = inr rows ->
  Exists (fun r => ~ In (fst r) bucket_order) rows ->
  exists label,
    ~ In label bucket_order
    /\ query_buckets conn s e w = (inl (ValueError_index label), w).
Proof.
  intros Hrows Hex. unfold query_buckets, bind, lift. rewrite Hrows.
  unfold list_sort.
  destruct (sort_keys_raises bucket_key (List.map bucket_of_row rows))
    as (b & err & Hin & Hkey & Hsort).
  - apply Exists_exists in Hex. destruct Hex as (r & Hr & Hout).
    apply Exists_exists. exists (bucket_of_row r).
    split; [now apply in_map|]. eexists. now apply bucket_key_unknown.
  - unfold bucket_key in Hkey.
    destruct (index bucket_order (bucket_range b)) eqn:E; [discriminate|].
    injection Hkey as <-. exists (bucket_range b).
    split; [now apply index_none|].
    change (fun r => {| bucket_range := fst r; bucket_count := snd r |})
      with bucket_of_row.
    now rewrite Hsort.
Qed.

Lemma StronglySorted_filter {A} (R : A -> A -> Prop) (p : A -> bool) l :
  StronglySorted R l -> StronglySorted R (filter p l).
Proof.
  induction 1 as [|a l Hs IH Hall]; simpl; [constructor|].
  destruct (p a); [|exact IH]. constructor; [exact IH|].
  rewrite Forall_forall in *. intros b Hb. apply filter_In in Hb.
  apply Hall. tauto.
Qed.

(** Two sorted lists with the same elements are equal, when the order is
    antisymmetric on them. *)
Lemma StronglySorted_unique {A} (R : A -> A -> Prop) (l1 l2 : list A) :
  (forall a b, In a l1 -> In b l1 -> R a b -> R b a -> a = b) ->
  StronglySorted R l1 -> StronglySorted R l2 -> Permutation l1 l2 ->
  NoDup l1 ->
  l1 = l2.
Proof.
  intros Hanti Hs1. revert l2 Hanti.
  induction Hs1 as [|a l1 Hs1 IH Hall1]; intros l2 Hanti Hs2 Hperm Hnd.
  - apply Permutation_nil in Hperm. now subst.
  - destruct Hs2 as [|b l2 Hs2 Hall2].
    + apply Permutation_sym, Permutation_nil in Hperm. discriminate.
    + rewrite Forall_forall in Hall1, Hall2.
      assert (Hb : In b (a :: l1))
        by (apply (Permutation_in _ (Permutation_sym Hperm)); now left).
      assert (Ha : In a (b :: l2))
        by (apply (Permutation_in _ Hperm); now left).
      assert (Hab : a = b).
      { destruct Hb as [Hb|Hb]; [exact Hb|].
        destruct Ha as [Ha|Ha]; [now symmetry|].
        apply Hanti; [now left | now right | now apply Hall1 |].
        now apply Hall2. }
      subst b. f_equal.
      apply IH.
      * intros x y Hx Hy. apply Hanti; now right.
      * exact Hs2.
      * now apply Permutation_cons_inv in Hperm.
      * now inversion Hnd.
Qed.

Lemma index_nth_error l x i : index l x = Some i -> nth_error l i = Some x.
Proof.
  revert i. induction l as [|y l IH]; intros i; simpl; [discriminate|].
  destruct (str_eqb y x) eqn:E.
  - intros [= <-]. apply str_eqb_eq in E. now subst.
  - destruct (index l x) as [j|]; simpl; [|discriminate].
    intros [= <-]. simpl. now apply IH.
Qed.

Lemma label_rank_injective a b :
  In a bucket_order -> In b bucket_order -> label_rank a = label_rank b -> a = b.
Proof.
  intros Ha Hb. unfold label_rank.
  destruct (index_some _ _ Ha) as [i Hi]. destruct (index_some _ _ Hb) as [j Hj].
  rewrite Hi, Hj. intros ->.
  apply index_nth_error in Hi. apply index_nth_error in Hj. congruence.
Qed.

Lemma bucket_order_sorted :
  StronglySorted (fun a b => (label_rank a <= label_rank b)%nat) bucket_order.
Proof.
  unfold bucket_order.
  repeat (constructor; [| repeat (constructor; [vm_compute; lia|]); constructor]).
  constructor.
Qed.

Lemma bucket_order_nodup : NoDup bucket_order.
Proof.
  unfold bucket_order.
  repeat (constructor; [simpl; intros H; repeat destruct H as [H|H]; discriminate H || exact H|]).
  constructor.
Qed.

Lemma existsb_str_eqb x l : existsb (str_eqb x) l = true <-> In x l.
Proof.
  rewrite existsb_exists. split.
  - intros (y & Hy & E). apply str_eqb_eq in E. now subst.
  - intros H. exists x. split; [exact H | apply str_eqb_refl].
Qed.

Lemma returned_labels_spec rows x :
  Forall (fun r => In (fst r) bucket_order) rows ->
  In x (returned_labels rows) <-> In x (List.map fst rows).
Proof.
  intros Hall. unfold returned_labels. rewrite filter_In, existsb_str_eqb.
  split; [tauto|]. intros H. split; [|exact H].
  apply in_map_iff in H. destruct H as (r & <- & Hr).
  rewrite Forall_forall in Hall. now apply Hall.
Qed.

(** With one row per label, the labels come out as [bucket_order] lists
    them, whatever the order of the rows. *)
Lemma query_buckets_labels conn s e rows w :
  exec_buckets conn s e = inr rows ->
  Forall (fun r => In (fst r) bucket_order) rows ->
  NoDup (List.map fst rows) ->
  exists bs,
    query_buckets conn s e w = (inr bs, w)
    /\ List.map bucket_range bs = returned_labels rows.
Proof.
  intros Hrows Hall Hnd. eexists.
  split; [exact (query_buckets_ok conn s e rows w Hrows Hall)|].
  set (ks := List.map (fun x => (bucket_rank x, x)) (List.map bucket_of_row rows)).
  assert (Hperm : Permutation (sort_keyed ks) ks) by apply sort_keyed_perm.
  assert (Hlabels : Permutation (List.map bucket_range (List.map snd (sort_keyed ks)))
                                (List.map fst rows)).
  { rewrite Hperm. unfold ks. rewrite !map_map. simpl. reflexivity. }
  assert (Hks : Forall (fun kx => fst kx = bucket_rank (snd kx)) ks).
  { unfold ks. apply Forall_forall. intros kx Hkx.
    apply in_map_iff in Hkx. now destruct Hkx as (b & <- & _). }
  apply (StronglySorted_unique
           (fun a b => (label_rank a <= label_rank b)%nat)).
  - intros a b Ha Hb Hab Hba.
    assert (Hin : forall x, In x (List.map bucket_range (List.map snd (sort_keyed ks)))
                            -> In x bucket_order).
    { intros x Hx. apply (Permutation_in _ Hlabels) in Hx.
      apply in_map_iff in Hx. destruct Hx as (r & <- & Hr).
      rewrite Forall_forall in Hall. now apply Hall. }
    apply label_rank_injective; [now apply Hin | now apply Hin | lia].
  - rewrite map_map. apply StronglySorted_map.
    apply StronglySorted_weaken with (R := key_le); [|apply sort_keyed_sorted].
    apply (Permutation_Forall (Permutation_sym Hperm)) in Hks.
    rewrite Forall_forall in Hks.
    intros a b Ha Hb Hab. unfold key_le in Hab.
    rewrite (Hks a Ha), (Hks b Hb) in Hab. exact Hab.
  - apply StronglySorted_filter, bucket_order_sorted.
  - apply NoDup_Permutation.
    + apply (Permutation_NoDup (Permutation_sym Hlabels) Hnd).
    + apply NoDup_filter, bucket_order_nodup.
    + intros x. rewrite (returned_labels_spec rows x Hall).
      split; intros H.
      * now apply (Permutation_in _ Hlabels).
      * now apply (Permutation_in _ (Permutation_sym Hlabels)).
  - apply (Permutation_NoDup (Permutation_sym Hlabels) Hnd).
Qed.

(* ================================================================== *)
(** * Facts about the queries and the cache builder *)
(* ================================================================== *)

Lemma stateless_ret {A} (a : A) : stateless (ret a).
Proof. now exists (inr a). Qed.

Lemma stateless_raise {A} (e : exn) : stateless (@raise A e).
Proof. now exists (inl e). Qed.

Lemma stateless_lift {A} (r : exn + A) : stateless (lift r).
Proof. now exists r. Qed.

Lemma stateless_bind {A B} (m : M A) (k : A -> M B) :
  stateless m -> (forall a, stateless (k a)) -> stateless (bind m k).
Proof.
  intros [r Hr] Hk. destruct r as [e|a].
  - exists (inl e). intros w. unfold bind. now rewrite Hr.
  - destruct (Hk a) as [r' Hr']. exists r'. intros w. unfold bind.
    now rewrite Hr, Hr'.
Qed.

Lemma stateless_py_float x : stateless (py_float x).
Proof. destruct x; [apply stateless_ret | apply stateless_raise]. Qed.

Lemma stateless_list_sort {A} (key : A -> exn + nat) l :
  stateless (list_sort key l).
Proof.
  unfold list_sort. destruct (sort_keys key l);
    [apply stateless_raise | apply stateless_ret].
Qed.

Lemma stateless_institutions results : stateless (institutions results).
Proof.
  induction results as [|[[name count] volume] rest IH]; simpl.
  - apply stateless_ret.
  - apply stateless_bind; [apply stateless_py_float|]. intros v.
    apply stateless_bind; [exact IH|]. intros tail. apply stateless_ret.
Qed.

Lemma stateless_query_summary_stats conn s e :
  stateless (query_summary_stats conn s e).
Proof.
  unfold query_summary_stats.
  apply stateless_bind; [apply stateless_lift|]. intros [[[r0 r1] r2] r3].
  apply stateless_bind; [apply stateless_py_float|]. intros v.
  apply stateless_bind; [apply stateless_py_float|]. intros a.
  apply stateless_ret.
Qed.

Lemma stateless_query_buckets conn s e : stateless (query_buckets conn s e).
Proof.
  unfold query_buckets.
  apply stateless_bind; [apply stateless_lift|]. intros rows.
  apply stateless_list_sort.
Qed.

Lemma stateless_query_top_by_frequency conn s e :
  stateless (query_top_by_frequency conn s e).
Proof.
  unfold query_top_by_frequency.
  apply stateless_bind; [apply stateless_lift | apply stateless_institutions].
Qed.

Lemma stateless_query_top_by_volume conn s e :
  stateless (query_top_by_volume conn s e).
Proof.
  unfold query_top_by_volume.
  apply stateless_bind; [apply stateless_lift | apply stateless_institutions].
Qed.

Lemma stateless_query_range conn s e : stateless (query_range conn s e).
Proof.
  unfold query_range.
  apply stateless_bind; [apply stateless_query_summary_stats|]. intros x.
  apply stateless_bind; [apply stateless_query_buckets|]. intros b.
  apply stateless_bind; [apply stateless_query_top_by_frequency|]. intros f.
  apply stateless_bind; [apply stateless_query_top_by_volume|]. intros v.
  apply stateless_ret.
Qed.

Lemma query_range_eq conn s e w :
  query_range conn s e w = (range_result conn s e, w).
Proof.
  destruct (stateless_query_range conn s e) as [r Hr].
  unfold range_result. now rewrite !Hr.
Qed.

Lemma query_ranges_eq conn date_ranges data_cache w :
  query_ranges conn date_ranges data_cache w
  = (build_cache conn date_ranges data_cache, w).
Proof.
  revert data_cache.
  induction date_ranges as [|[name [s e]] rest IH]; intros data_cache; simpl.
  - reflexivity.
  - unfold bind. rewrite query_range_eq.
    destruct (range_result conn s e); [reflexivity | apply IH].
Qed.

Lemma query_all_data_eq env w :
  query_all_data env w =
  match snowflake env with
  | inl err => (inl err, w)
  | inr conn =>
      match build_cache conn (get_date_ranges (now_ordinal env)) [] with
      | inl err => (inl err, mkWorld (index_html w) (S (open_connections w)))
      | inr data_cache => (inr data_cache, w)
      end
  end.
Proof.
  unfold query_all_data, bind, get_snowflake_connection.
  destruct (snowflake env) as [err|conn]; [reflexivity|].
  rewrite query_ranges_eq.
  destruct (build_cache _ _ _); [reflexivity|].
  unfold conn_close, ret. simpl. destruct w; reflexivity.
Qed.

Section DictFacts.

Context {V : Type}.
Implicit Types (d : dict V) (k : str) (v : V).

Lemma dict_get_set_same k v d : dict_get k (dict_set k v d) = Some v.
Proof.
  induction d as [|[k' v'] d IH]; simpl.
  - now rewrite str_eqb_refl.
  - destruct (str_eqb k' k) eqn:E; simpl; rewrite E; [reflexivity | exact IH].
Qed.

Lemma dict_get_set_other k k' v d :
  k' <> k -> dict_get k (dict_set k' v d) = dict_get k d.
Proof.
  intros Hne. induction d as [|[k2 v2] d IH]; simpl.
  - apply str_eqb_neq in Hne. now rewrite Hne.
  - destruct (str_eqb k2 k') eqn:E; simpl.
    + apply str_eqb_eq in E. subst k2.
      apply str_eqb_neq in Hne. now rewrite Hne.
    + destruct (str_eqb k2 k); [reflexivity | exact IH].
Qed.

End DictFacts.

(** ** Dates contain no underscore, so a key determines its range *)

Lemma lit_cons c s : lit (String c s) = N_of_ascii c :: lit s.
Proof. reflexivity. Qed.

Lemma string_of_uint_no_underscore d :
  Forall (fun c => c <> underscore) (lit (NilEmpty.string_of_uint d)).
Proof.
  induction d; simpl NilEmpty.string_of_uint;
    [constructor | rewrite lit_cons; constructor; [discriminate | assumption] ..].
Qed.

Lemma int_repr_no_underscore z : Forall (fun c => c <> underscore) (int_repr z).
Proof.
  unfold int_repr, NilZero.string_of_int, NilZero.string_of_uint.
  destruct (Z.to_int z) as [d|d].
  - destruct d; try apply string_of_uint_no_underscore.
    repeat constructor; discriminate.
  - rewrite lit_cons. constructor; [discriminate|].
    destruct d; try apply string_of_uint_no_underscore.
    repeat constructor; discriminate.
Qed.

Lemma zero_padded_no_underscore width z :
  Forall (fun c => c <> underscore) (zero_padded width z).
Proof.
  unfold zero_padded. apply Forall_app. split.
  - apply Forall_forall. intros c Hc. apply repeat_spec in Hc. now subst.
  - apply int_repr_no_underscore.
Qed.

Lemma strftime_ymd_no_underscore ordinal :
  Forall (fun c => c <> underscore) (strftime_ymd ordinal).
Proof.
  unfold strftime_ymd. destruct (ord2ymd ordinal) as [[y m] d].
  change (lit "-") with [45%N].
  apply Forall_app; split; [apply zero_padded_no_underscore|].
  constructor; [discriminate|].
  apply Forall_app; split; [apply zero_padded_no_underscore|].
  constructor; [discriminate|].
  apply zero_padded_no_underscore.
Qed.

Lemma planned_starts_no_underscore today :
  Forall (fun r => Forall (fun c => c <> underscore) (fst (snd r)))
         (get_date_ranges today).
Proof.
  unfold get_date_ranges.
  repeat (constructor; [first [apply strftime_ymd_no_underscore
                              | cbn; repeat constructor; discriminate]|]).
  constructor.
Qed.

Lemma cache_key_injective s e s' e' :
  Forall (fun c => c <> underscore) s ->
  Forall (fun c => c <> underscore) s' ->
  cache_key s e = cache_key s' e' -> s = s' /\ e = e'.
Proof.
  unfold cache_key. change (lit "_") with [underscore].
  intros Hs. revert s'. induction Hs as [|c s Hc Hs IH]; intros s' Hs' H.
  - destruct Hs' as [|c' s' Hc' Hs']; simpl in H.
    + injection H as H. now split.
    + injection H as H _. congruence.
  - destruct Hs' as [|c' s' Hc' Hs']; simpl in H.
    + injection H as H _. congruence.
    + injection H as -> H. destruct (IH s' Hs' H) as [-> ->]. now split.
Qed.

(** ** The cache the loop builds *)

Lemma build_cache_raises conn date_ranges data_cache name s e err :
  In (name, (s, e)) date_ranges ->
  range_result conn s e = inl err ->
  exists name' s' e' err',
    In (name', (s', e')) date_ranges
    /\ range_result conn s' e' = inl err'
    /\ build_cache conn date_ranges data_cache = inl err'.
Proof.
  revert data_cache.
  induction date_ranges as [|[n [s0 e0]] rest IH]; intros data_cache Hin Herr;
    [inversion Hin|].
  simpl. destruct (range_result conn s0 e0) as [err0|snap] eqn:E.
  - exists n, s0, e0, err0. repeat split; [now left | exact E].
  - destruct Hin as [Hin|Hin]; [congruence|].
    destruct (IH (dict_set (cache_key s0 e0) snap data_cache) Hin Herr)
      as (n' & s' & e' & err' & Hin' & Herr' & Hb).
    exists n', s', e', err'. repeat split; [now right | exact Herr' | exact Hb].
Qed.

Lemma build_cache_untouched conn date_ranges data_cache cache k :
  build_cache conn date_ranges data_cache = inr cache ->
  ~ In k (List.map range_key date_ranges) ->
  dict_get k cache = dict_get k data_cache.
Proof.
  revert data_cache.
  induction date_ranges as [|[n [s e]] rest IH]; intros data_cache Hb Hk;
    simpl in Hb.
  - now injection Hb as <-.
  - destruct (range_result conn s e) as [err|snap]; [discriminate|].
    rewrite (IH _ Hb) by (intros H; apply Hk; now right).
    apply dict_get_set_other. intros Heq. apply Hk. left. exact Heq.
Qed.

Lemma build_cache_entries conn date_ranges data_cache cache :
  build_cache conn date_ranges data_cache = inr cache ->
  Forall (fun r => Forall (fun c => c <> underscore) (fst (snd r))) date_ranges ->
  forall name s e,
    In (name, (s, e)) date_ranges ->
    exists snapshot,
      range_result conn s e = inr snapshot
      /\ dict_get (cache_key s e) cache = Some snapshot.
Proof.
  revert data_cache.
  induction date_ranges as [|[n [s0 e0]] rest IH];
    intros data_cache Hb Hwf name s e Hin; [inversion Hin|].
  simpl in Hb.
  destruct (range_result conn s0 e0) as [err|snap] eqn:E; [discriminate|].
  inversion Hwf as [|? ? Hs0 Hrest]; subst.
  destruct Hin as [Hin|Hin]; [|exact (IH _ Hb Hrest name s e Hin)].
  injection Hin as -> -> ->.
  destruct (in_dec (list_eq_dec N.eq_dec) (cache_key s e)
                   (List.map range_key rest)) as [Hlater|Hlast].
  - apply in_map_iff in Hlater. destruct Hlater as ([n' [s' e']] & Hkey & Hin').
    unfold range_key in Hkey. simpl in Hkey.
    pose proof (proj1 (Forall_forall _ _) Hrest _ Hin') as Hs'.
    simpl in Hs'.
    destruct (cache_key_injective s' e' s e Hs' Hs0 Hkey) as [-> ->].
    exact (IH _ Hb Hrest n' s e Hin').
  - exists snap. split; [exact E|].
    rewrite (build_cache_untouched _ _ _ _ _ Hb Hlast).
    apply dict_get_set_same.
Qed.

Section MainFacts.

Variable floatstr : float -> str.

Lemma main_eq env w :
  main floatstr env w =
  match query_all_data env w with
  | (inl err, w') => (inl err, w')
  | (inr data_cache, w') => update_html_file floatstr data_cache w'
  end.
Proof. reflexivity. Qed.

Lemma update_html_file_raise_keeps_file cache w err w' :
  update_html_file floatstr cache w = (inl err, w') -> w' = w.
Proof.
  unfold update_html_file. destruct (index_html w) as [html|].
  - destruct (_ || _); [now intros [= _ <-] | discriminate].
  - now intros [= _ <-].
Qed.

End MainFacts.

(** ** Calendar dates *)

Lemma month_day_checked :
  forallb (fun i => month_day_ok (Z.of_nat i) true && month_day_ok (Z.of_nat i) false)
          (seq 0 365) = true.
Proof. vm_compute. reflexivity. Qed.

Lemma month_day_bounds n leapyear :
  0 <= n <= 364 ->
  1 <= fst (month_day n leapyear) <= 12 /\ 1 <= snd (month_day n leapyear) <= 31.
Proof.
  intros Hn.
  pose proof (proj1 (forallb_forall _ _) month_day_checked (Z.to_nat n)) as H.
  cbv beta in H. rewrite Z2Nat.id in H by lia.
  assert (Hin : In (Z.to_nat n) (seq 0 365)) by (apply in_seq; lia).
  specialize (H Hin). apply andb_prop in H. destruct H as [Ht Hf].
  assert (Hok : month_day_ok n leapyear = true) by (destruct leapyear; assumption).
  unfold month_day_ok in Hok. destruct (month_day n leapyear) as [m d]. simpl.
  repeat (apply andb_prop in Hok; destruct Hok as [Hok ?]).
  lia.
Qed.

Lemma ord2ymd_bounds ordinal :
  364878 <= ordinal <= 3652059 ->
  match ord2ymd ordinal with
  | (y, m, d) => 1000 <= y <= 9999 /\ 1 <= m <= 12 /\ 1 <= d <= 31
  end.
Proof.
  intros H. unfold ord2ymd.
  set (n0 := ordinal - 1).
  set (n400 := n0 / 146097). set (r400 := n0 mod 146097).
  set (n100 := r400 / 36524). set (r100 := r400 mod 36524).
  set (n4 := r100 / 1461). set (r4 := r100 mod 1461).
  set (n1 := r4 / 365). set (r1 := r4 mod 365).
  assert (Hn0 : 364877 <= n0 <= 3652058) by (unfold n0; lia).
  assert (H400 : n0 = 146097 * n400 + r400 /\ 0 <= r400 < 146097)
    by (unfold n400, r400; split;
        [apply Z.div_mod; lia | apply Z.mod_pos_bound; lia]).
  assert (H100 : r400 = 36524 * n100 + r100 /\ 0 <= r100 < 36524)
    by (unfold n100, r100; split;
        [apply Z.div_mod; lia | apply Z.mod_pos_bound; lia]).
  assert (H4 : r100 = 1461 * n4 + r4 /\ 0 <= r4 < 1461)
    by (unfold n4, r4; split;
        [apply Z.div_mod; lia | apply Z.mod_pos_bound; lia]).
  assert (H1 : r4 = 365 * n1 + r1 /\ 0 <= r1 < 365)
    by (unfold n1, r1; split;
        [apply Z.div_mod; lia | apply Z.mod_pos_bound; lia]).
  clearbody n400 r400 n100 r100 n4 r4 n1 r1 n0.
  destruct ((n1 =? 4) || (n100 =? 4)) eqn:Especial.
  - apply orb_prop in Especial.
    repeat split; try lia;
      destruct Especial as [E|E]; apply Z.eqb_eq in E; lia.
  - apply orb_false_elim in Especial. destruct Especial as [E1 E100].
    apply Z.eqb_neq in E1. apply Z.eqb_neq in E100.
    set (leapyear := (n1 =? 3) && (negb (n4 =? 24) || (n100 =? 3))).
    pose proof (month_day_bounds r1 leapyear ltac:(lia)) as Hmd.
    unfold month_day in Hmd.
    destruct (r1 <? _) eqn:Elt; simpl in Hmd; (split; [lia | exact Hmd]).
Qed.

Lemma padded_year_checked :
  forallb (fun i => padded_ok 4 (Z.of_nat i)) (seq 0 (Z.to_nat 10000)) = true.
Proof. vm_compute. reflexivity. Qed.

Lemma padded_two_checked :
  forallb (fun i => padded_ok 2 (Z.of_nat i)) (seq 0 100) = true.
Proof. vm_compute. reflexivity. Qed.

Lemma padded_year z :
  0 <= z <= 9999 ->
  exists a b c d,
    zero_padded 4 z = [a; b; c; d]
    /\ forallb is_digit [a; b; c; d] = true.
Proof.
  intros Hz.
  pose proof (proj1 (forallb_forall _ _) padded_year_checked (Z.to_nat z)) as H.
  cbv beta in H. rewrite Z2Nat.id in H by lia.
  assert (Hin : In (Z.to_nat z) (seq 0 (Z.to_nat 10000))) by (apply in_seq; lia).
  specialize (H Hin). unfold padded_ok in H. apply andb_prop in H.
  destruct H as [Hlen Hdigits]. apply Nat.eqb_eq in Hlen.
  destruct (zero_padded 4 z) as [|a [|b [|c [|d [|x l]]]]]; try discriminate.
  now exists a, b, c, d.
Qed.

Lemma padded_two z :
  0 <= z <= 99 ->
  exists a b, zero_padded 2 z = [a; b] /\ forallb is_digit [a; b] = true.
Proof.
  intros Hz.
  pose proof (proj1 (forallb_forall _ _) padded_two_checked (Z.to_nat z)) as H.
  cbv beta in H. rewrite Z2Nat.id in H by lia.
  assert (Hin : In (Z.to_nat z) (seq 0 100)) by (apply in_seq; lia).
  specialize (H Hin). unfold padded_ok in H. apply andb_prop in H.
  destruct H as [Hlen Hdigits]. apply Nat.eqb_eq in Hlen.
  destruct (zero_padded 2 z) as [|a [|b [|x l]]]; try discriminate.
  now exists a, b.
Qed.

(** Between the years 1000 and 9999, [strftime('%Y-%m-%d')] has the shape
    [YYYY-MM-DD]. *)
Lemma strftime_ymd_iso ordinal :
  ordinal_1000_01_01 <= ordinal <= ordinal_9999_12_31 ->
  iso_date (strftime_ymd ordinal) = true.
Proof.
  intros H. pose proof (ord2ymd_bounds ordinal H) as Hb.
  unfold strftime_ymd. destruct (ord2ymd ordinal) as [[y m] d].
  destruct Hb as (Hy & Hm & Hd).
  destruct (padded_year y ltac:(lia)) as (y1 & y2 & y3 & y4 & -> & Hyd).
  destruct (padded_two m ltac:(lia)) as (m1 & m2 & -> & Hmd).
  destruct (padded_two d ltac:(lia)) as (d1 & d2 & -> & Hdd).
  change (forallb is_digit [y1; y2; y3; y4; m1; m2; d1; d2]
          && (45 =? 45)%N && (45 =? 45)%N = true).
  cbn [forallb] in *.
  repeat match goal with
         | H : _ && _ = true |- _ => apply andb_prop in H; destruct H
         end.
  repeat match goal with
         | H : is_digit _ = true |- _ => rewrite H; clear H
         end.
  reflexivity.
Qed.

Lemma planned_ranges_iso today name s e :
  ordinal_1000_01_01 + 90 <= today <= ordinal_9999_12_31 ->
  In (name, (s, e)) (get_date_ranges today) ->
  iso_date s = true /\ iso_date e = true.
Proof.
  intros Ht Hin. unfold ordinal_1000_01_01, ordinal_9999_12_31 in Ht.
  unfold get_date_ranges in Hin. simpl in Hin.
  repeat (destruct Hin as [Hin|Hin];
          [injection Hin as _ <- <-;
           split; first [ reflexivity
                        | apply strftime_ymd_iso;
                          unfold ordinal_1000_01_01, ordinal_9999_12_31; lia ]
          |]).
  contradiction.
Qed.

(* ================================================================== *)
(** * The injector: [update_html_file] *)
(* ================================================================== *)

(** When the opening marker is missing the injector raises the
    malformed-artifact error and leaves the world, hence the file, as it
    was. *)
Lemma update_html_file_without_opening_marker floatstr cache w html :
  index_html w = Some html ->
  find html start_marker 0 = -1 ->
  update_html_file floatstr cache w = (inl malformed_artifact, w).
Proof. apply update_html_file_no_start. Qed.

(** When the opening marker is there and no closing marker follows it,
    [find] answers [-1], [end_idx] is [-1 + 10 = 9], the test
    [end_idx == -1] is false, and the file is rewritten with everything
    from index 9 on appended after the new block. *)
Lemma update_html_file_closing_marker_not_found floatstr cache w html :
  index_html w = Some html ->
  find html start_marker 0 <> -1 ->
  find html end_marker (find html start_marker 0) = -1 ->
  update_html_file floatstr cache w =
  (inr tt,
   mkWorld (Some (slice_to html (find html start_marker 0)
                  ++ new_data_cache floatstr cache
                  ++ slice_from html 9))
           (open_connections w)).
Proof.
  intros Hfile Hs He.
  rewrite (update_html_file_found floatstr cache w html Hfile Hs), He.
  reflexivity.
Qed.

(** C1 (the code departs from the claim). The artifact
    [<script>const dataCache = {};</script>] holds the opening marker at
    index 8 and no closing marker after it. The injector does not raise: it
    overwrites the file with the text before the marker, the new block, and
    the old text from index 9 on. *)
Theorem update_html_file_without_closing_marker :
  find truncated_html start_marker 0 = 8
  /\ find truncated_html end_marker 8 = -1
  /\ update_html_file floatstr_integral sample_cache truncated_world
     = (inr tt,
        mkWorld (Some (lit "<script>"
                       ++ new_data_cache floatstr_integral sample_cache
                       ++ lit "onst dataCache = {};</script>")) 0).
Proof. repeat split; vm_compute; reflexivity. Qed.

(** Writing goes through the text piece by piece and leaves the markers,
    which hold no line end, as they are. *)
Lemma write_newlines_app linesep a b :
  write_newlines linesep (a ++ b)
  = write_newlines linesep a ++ write_newlines linesep b.
Proof. apply flat_map_app. Qed.

Lemma write_newlines_start_marker linesep rest :
  write_newlines linesep (start_marker ++ rest)
  = start_marker ++ write_newlines linesep rest.
Proof. reflexivity. Qed.

Lemma write_newlines_end_marker linesep rest :
  write_newlines linesep (end_marker ++ rest)
  = end_marker ++ write_newlines linesep rest.
Proof. reflexivity. Qed.

Lemma write_newlines_frame linesep pre mid post :
  write_newlines linesep (pre ++ start_marker ++ mid ++ end_marker ++ post)
  = write_newlines linesep pre ++ start_marker
    ++ write_newlines linesep mid ++ end_marker
    ++ write_newlines linesep post.
Proof.
  rewrite write_newlines_app, write_newlines_start_marker, write_newlines_app,
    write_newlines_end_marker.
  reflexivity.
Qed.

(** C5 (amended). In the text that [open] reads from the file, for an
    artifact that holds the opening marker and, from there on, the closing
    marker, the injector replaces exactly the range from the start of the
    first opening marker to the end of the first closing marker after it by
    the opening marker, the serialized cache and the closing marker (the
    brace of each marker is the outer brace of the serialization), and keeps
    every character before and after. On disk the text before, the new block
    and the text after are written with the line ends of the platform: when
    the file has these line ends already (writing the text read gives the
    file back), everything before the opening marker and after the closing
    marker is on disk as it was. *)
Theorem update_html_file_frame (floatstr : float -> str) cache w html :
  index_html w = Some html ->
  find html start_marker 0 <> -1 ->
  find html end_marker (find html start_marker 0) <> -1 ->
  exists pre old post body,
    html = pre ++ start_marker ++ old ++ end_marker ++ post
    /\ len pre = find html start_marker 0
    /\ len (pre ++ start_marker ++ old)
       = find html end_marker (find html start_marker 0)
    /\ dumps floatstr 12 (json_of_cache cache) = lit "{" ++ body ++ lit "}"
    /\ update_html_file floatstr cache w
       = (inr tt,
          mkWorld (Some (pre ++ start_marker ++ body ++ end_marker ++ post))
                  (open_connections w))
    /\ forall linesep raw,
         read_newlines raw = html ->
         update_html_file_on_disk floatstr linesep cache (Some raw)
         = (inr tt,
            Some (write_newlines linesep pre ++ start_marker
                  ++ write_newlines linesep body ++ end_marker
                  ++ write_newlines linesep post))
         /\ (write_newlines linesep html = raw ->
             raw = write_newlines linesep pre ++ start_marker
                   ++ write_newlines linesep old ++ end_marker
                   ++ write_newlines linesep post).
Proof.
  intros Hfile Hs He.
  assert (Hrun : forall w0,
             index_html w0 = Some html ->
             update_html_file floatstr cache w0
             = (inr tt,
                mkWorld (Some (slice_to html (find html start_marker 0)
                               ++ new_data_cache floatstr cache
                               ++ slice_from html
                                    (find html end_marker
                                       (find html start_marker 0)
                                     + len end_marker)))
                        (open_connections w0)))
    by (intros w0 H0; exact (update_html_file_found floatstr cache w0 html H0 Hs)).
  destruct (start_marker_found html Hs) as (pre & rest & Hhtml & Hlen & _).
  remember (find html start_marker 0) as s eqn:Es.
  assert (He' : find html end_marker s =
                match find_from end_marker rest 0 with
                | Some q => len pre + len start_marker + q
                | None => -1
                end).
  { rewrite Hhtml, <- Hlen. apply end_marker_search. }
  rewrite He' in He, Hrun |- *.
  destruct (find_from end_marker rest 0) as [q|] eqn:Eq; [|now elim He].
  destruct (find_from_split _ _ _ _ Eq) as (old & post & Hrest & Hq).
  destruct (new_data_cache_shape floatstr cache) as (body & Hd & Hn).
  exists pre, old, post, body.
  assert (Hhtml' : html = pre ++ start_marker ++ old ++ end_marker ++ post)
    by (rewrite Hhtml, Hrest; reflexivity).
  assert (Hnew : slice_to html s ++ new_data_cache floatstr cache
                 ++ slice_from html (len pre + len start_marker + q
                                     + len end_marker)
                 = pre ++ start_marker ++ body ++ end_marker ++ post).
  { rewrite Hn. rewrite <- Hlen. rewrite Hhtml' at 1. rewrite slice_to_len_app.
    rewrite <- !app_assoc. do 4 f_equal.
    replace (len pre + len start_marker + q + len end_marker)
      with (len (pre ++ start_marker ++ old ++ end_marker))
      by (rewrite !len_app; lia).
    rewrite Hhtml'.
    replace (pre ++ start_marker ++ old ++ end_marker ++ post)
      with ((pre ++ start_marker ++ old ++ end_marker) ++ post)
      by (rewrite <- !app_assoc; reflexivity).
    apply slice_from_len_app. }
  rewrite Hnew in Hrun.
  split; [exact Hhtml'|]. split; [exact Hlen|].
  split; [rewrite !len_app; lia|]. split; [exact Hd|].
  split; [exact (Hrun w Hfile)|].
  intros linesep raw Hraw. split.
  - unfold update_html_file_on_disk. cbn [option_map]. rewrite Hraw.
    rewrite (Hrun (mkWorld (Some html) 0) eq_refl).
    cbn [index_html option_map]. now rewrite write_newlines_frame.
  - intros Hback. rewrite <- Hback. rewrite Hhtml' at 1.
    apply write_newlines_frame.
Qed.

(** The witness reads [crlf_html]: the text holds the markers, and for
    Windows line ends the file is the text written back. *)
Lemma update_html_file_frame_on_sample :
  exists pre old post body,
    read_newlines crlf_html
    = pre ++ start_marker ++ old ++ end_marker ++ post
    /\ len pre = find (read_newlines crlf_html) start_marker 0
    /\ len (pre ++ start_marker ++ old)
       = find (read_newlines crlf_html) end_marker
           (find (read_newlines crlf_html) start_marker 0)
    /\ dumps floatstr_integral 12 (json_of_cache sample_cache)
       = lit "{" ++ body ++ lit "}"
    /\ update_html_file floatstr_integral sample_cache
         (mkWorld (Some (read_newlines crlf_html)) 0)
       = (inr tt,
          mkWorld (Some (pre ++ start_marker ++ body ++ end_marker ++ post))
                  (open_connections (mkWorld (Some (read_newlines crlf_html)) 0)))
    /\ forall linesep raw,
         read_newlines raw = read_newlines crlf_html ->
         update_html_file_on_disk floatstr_integral linesep sample_cache
           (Some raw)
         = (inr tt,
            Some (write_newlines linesep pre ++ start_marker
                  ++ write_newlines linesep body ++ end_marker
                  ++ write_newlines linesep post))
         /\ (write_newlines linesep (read_newlines crlf_html) = raw ->
             raw = write_newlines linesep pre ++ start_marker
                   ++ write_newlines linesep old ++ end_marker
                   ++ write_newlines linesep post).
Proof.
  apply (update_html_file_frame floatstr_integral sample_cache
           (mkWorld (Some (read_newlines crlf_html)) 0)
           (read_newlines crlf_html));
    [reflexivity | vm_compute; discriminate | vm_compute; discriminate].
Defined.

(** With Windows line ends as [os.linesep], [crlf_html] is the text read
    from it written back, and the update keeps [crlf_pre] and [crlf_post] on
    disk. *)
Example update_html_file_keeps_crlf_on_windows :
  write_newlines windows_linesep (read_newlines crlf_html) = crlf_html
  /\ exists block,
       update_html_file_on_disk floatstr_integral windows_linesep sample_cache
         (Some crlf_html)
       = (inr tt, Some (crlf_pre ++ block ++ crlf_post))
       /\ block = write_newlines windows_linesep
                    (new_data_cache floatstr_integral sample_cache).
Proof.
  split; [vm_compute; reflexivity|].
  eexists. split; [|reflexivity]. vm_compute. reflexivity.
Qed.

(** C5 as it was stated fails on a POSIX system for [crlf_html]: the file
    holds the opening marker after [crlf_pre] and the closing marker before
    [crlf_post], and the file written neither begins with [crlf_pre] nor ends
    with [crlf_post]: every CR of the file is gone, outside the block too. *)
Lemma update_html_file_rewrites_line_ends :
  find crlf_html start_marker 0 = len crlf_pre
  /\ find crlf_html end_marker (len crlf_pre)
     = len (crlf_pre ++ start_marker ++ crlf_old)
  /\ exists out,
       update_html_file_on_disk floatstr_integral posix_linesep sample_cache
         (Some crlf_html)
       = (inr tt, Some out)
       /\ slice_to out (len crlf_pre) <> crlf_pre
       /\ slice_from out (len out - len crlf_post) <> crlf_post
       /\ In CR crlf_pre /\ In CR crlf_post /\ ~ In CR out.
Proof.
  split; [vm_compute; reflexivity|]. split; [vm_compute; reflexivity|].
  eexists. split; [vm_compute; reflexivity|].
  split; [vm_compute; discriminate|]. split; [vm_compute; discriminate|].
  split; [vm_compute; tauto|]. split; [vm_compute; tauto|].
  match goal with
  | |- ~ In CR ?o =>
      assert (Hb : forallb (fun c => negb (c =? CR)%N) o = true)
        by (vm_compute; reflexivity)
  end.
  rewrite forallb_forall in Hb. intros H. specialize (Hb _ H).
  rewrite N.eqb_refl in Hb. discriminate.
Qed.

(** C4 (amended). The injector is idempotent for every artifact that holds
    the marker pair and every cache whose block has its first closing marker
    at its very end, that is, whose serialization nowhere spells the closing
    marker (an institution name could): the second application succeeds and
    leaves the artifact as the first one wrote it. *)
Theorem update_html_file_idempotent (floatstr : float -> str) cache w html :
  index_html w = Some html ->
  find html start_marker 0 <> -1 ->
  find html end_marker (find html start_marker 0) <> -1 ->
  find (new_data_cache floatstr cache) end_marker 0
  = len (new_data_cache floatstr cache) - len end_marker ->
  exists w1,
    update_html_file floatstr cache w = (inr tt, w1)
    /\ update_html_file floatstr cache w1 = (inr tt, w1).
Proof.
  intros Hfile Hs _ Hblock.
  rewrite (update_html_file_found floatstr cache w html Hfile Hs).
  eexists. split; [reflexivity|].
  destruct (start_marker_found html Hs) as (pre & rest & Hhtml & Hlen & Hfind).
  assert (Hpre : slice_to html (len pre) = pre)
    by (rewrite Hhtml; apply slice_to_len_app).
  rewrite <- Hlen, Hpre.
  apply update_html_file_fixpoint with (rest := rest); [|exact Hblock].
  rewrite <- Hhtml. exact Hfind.
Qed.

Lemma update_html_file_idempotent_on_sample :
  exists w1,
    update_html_file floatstr_integral sample_cache sample_world = (inr tt, w1)
    /\ update_html_file floatstr_integral sample_cache w1 = (inr tt, w1).
Proof.
  apply (update_html_file_idempotent floatstr_integral sample_cache
           sample_world sample_html);
    [reflexivity | vm_compute; discriminate | vm_compute; discriminate
    | vm_compute; reflexivity].
Defined.

(** C4 as it was stated fails for [hostile_cache], whose institution is
    named [A        };B]: the second application finds the closing marker
    inside that name and leaves a longer artifact than the first. *)
Lemma update_html_file_drifts_on_hostile_cache :
  exists w1 w2,
    update_html_file floatstr_integral hostile_cache sample_world = (inr tt, w1)
    /\ update_html_file floatstr_integral hostile_cache w1 = (inr tt, w2)
    /\ index_html w2 <> index_html w1.
Proof.
  eexists. eexists. split; [reflexivity|]. split; [reflexivity|].
  intros H. apply (f_equal (option_map len)) in H.
  vm_compute in H. discriminate.
Qed.

(** C9. Where the opening marker is found, [update_html_file] ends the block
    where a search for the closing marker from the index after the opening
    marker's position ends it: the search from the position itself, which
    the code does, gives what the search from the next index gives, and what
    the search from the end of the opening marker gives. When a closing
    marker is found, the text before the opening marker is kept whole,
    closing markers in it included, and the block ends with the first
    closing marker that lies after the whole opening marker. *)
Theorem closing_marker_search_after_opening
  (floatstr : float -> str) cache w html :
  index_html w = Some html ->
  find html start_marker 0 <> -1 ->
  update_html_file floatstr cache w
  = (inr tt,
     mkWorld (Some (slice_to html (find html start_marker 0)
                    ++ new_data_cache floatstr cache
                    ++ slice_from html
                         (find html end_marker (find html start_marker 0 + 1)
                          + len end_marker)))
             (open_connections w))
  /\ find html end_marker (find html start_marker 0)
     = find html end_marker (find html start_marker 0 + 1)
  /\ find html end_marker (find html start_marker 0)
     = find html end_marker (find html start_marker 0 + len start_marker)
  /\ (find html end_marker (find html start_marker 0) <> -1 ->
      exists pre old post,
        html = pre ++ start_marker ++ old ++ end_marker ++ post
        /\ len pre = find html start_marker 0
        /\ find (old ++ end_marker) end_marker 0 = len old
        /\ find html start_marker 0 + len start_marker
           <= find html end_marker (find html start_marker 0)
        /\ update_html_file floatstr cache w
           = (inr tt,
              mkWorld (Some (pre ++ new_data_cache floatstr cache ++ post))
                      (open_connections w))).
Proof.
  intros Hfile Hs.
  rewrite (update_html_file_found floatstr cache w html Hfile Hs).
  destruct (start_marker_found html Hs) as (pre & rest & Hhtml & Hlen & _).
  assert (Hsearch : find html end_marker (find html start_marker 0) =
                    match find_from end_marker rest 0 with
                    | Some q => len pre + len start_marker + q
                    | None => -1
                    end)
    by (rewrite Hhtml at 1; rewrite <- Hlen; apply end_marker_search).
  assert (Hnext : find html end_marker (find html start_marker 0 + 1)
                  = find html end_marker (find html start_marker 0)).
  { rewrite Hsearch, <- Hlen. rewrite Hhtml at 1.
    apply end_marker_search_next. }
  split; [now rewrite Hnext|]. split; [now rewrite Hnext|]. split.
  - rewrite Hsearch, <- Hlen. rewrite Hhtml at 1.
    rewrite (app_assoc pre start_marker rest).
    rewrite <- len_app, find_at_split, len_app.
    destruct (find_from end_marker rest 0); reflexivity.
  - rewrite Hsearch.
    destruct (find_from end_marker rest 0) as [q|] eqn:Eq;
      [intros _ | intros H; now elim H].
    destruct (find_from_split _ _ _ _ Eq) as (old & post & Hrest & Hq).
    exists pre, old, post.
    assert (Hhtml' : html = pre ++ start_marker ++ old ++ end_marker ++ post)
      by (rewrite Hhtml, Hrest; reflexivity).
    split; [exact Hhtml'|]. split; [exact Hlen|]. split; [|split].
    + rewrite find_0.
      assert (Hfirst : find_from end_marker ((old ++ end_marker) ++ []) 0
                       = Some q).
      { apply find_from_stable with (b := post).
        - rewrite <- app_assoc, <- Hrest. exact Eq.
        - rewrite len_app. lia. }
      rewrite app_nil_r in Hfirst. rewrite Hfirst. lia.
    + apply find_from_bounds in Eq. lia.
    + do 3 f_equal.
      rewrite <- Hlen. rewrite Hhtml at 1. rewrite slice_to_len_app.
      do 2 f_equal.
      replace (len pre + len start_marker + q + len end_marker)
        with (len (pre ++ start_marker ++ old ++ end_marker))
        by (rewrite !len_app; lia).
      rewrite Hhtml'.
      replace (pre ++ start_marker ++ old ++ end_marker ++ post)
        with ((pre ++ start_marker ++ old ++ end_marker) ++ post)
        by (rewrite <- !app_assoc; reflexivity).
      apply slice_from_len_app.
Qed.

(** In [sample_html] a closing marker stands at index 10, the opening
    marker at index 44: the block is ended by the closing marker after the
    opening one, and [sample_pre] is kept. *)
Lemma closing_marker_search_on_sample :
  find sample_html end_marker 0 = 10
  /\ find sample_html start_marker 0 = 44
  /\ update_html_file floatstr_integral sample_cache sample_world
     = (inr tt,
        mkWorld (Some (sample_pre
                       ++ new_data_cache floatstr_integral sample_cache
                       ++ sample_post)) 0)
  /\ update_html_file floatstr_integral sample_cache sample_world
     = (inr tt,
        mkWorld (Some (slice_to sample_html 44
                       ++ new_data_cache floatstr_integral sample_cache
                       ++ slice_from sample_html
                            (find sample_html end_marker (44 + 1)
                             + len end_marker)))
                (open_connections sample_world))
  /\ find sample_html end_marker 44 = find sample_html end_marker (44 + 1)
  /\ find sample_html end_marker 44
     = find sample_html end_marker (44 + len start_marker)
  /\ (find sample_html end_marker 44 <> -1 ->
      exists pre old post,
        sample_html = pre ++ start_marker ++ old ++ end_marker ++ post
        /\ len pre = 44
        /\ find (old ++ end_marker) end_marker 0 = len old
        /\ 44 + len start_marker <= find sample_html end_marker 44
        /\ update_html_file floatstr_integral sample_cache sample_world
           = (inr tt,
              mkWorld (Some (pre
                             ++ new_data_cache floatstr_integral sample_cache
                             ++ post))
                      (open_connections sample_world))).
Proof.
  split; [reflexivity|]. split; [reflexivity|]. split; [reflexivity|].
  apply (closing_marker_search_after_opening floatstr_integral sample_cache
           sample_world sample_html).
  - reflexivity.
  - vm_compute. discriminate.
Defined.

(* ================================================================== *)
(** * The aggregator: [query_summary_stats] and [query_buckets] *)
(* ================================================================== *)

(** Rows without NULL are converted field by field. *)
Lemma query_summary_stats_non_null conn s e w users transactions volume avg :
  exec_summary conn s e = inr (users, transactions, Some volume, Some avg) ->
  query_summary_stats conn s e w
  = (inr {| uniqueUsers := users; totalTransactions := transactions;
            totalVolume := volume; avgDeposit := avg |}, w).
Proof.
  intros H. unfold query_summary_stats, bind, lift. rewrite H. reflexivity.
Qed.

(** C2 (amended). For a date range with zero matching rows the statement
    yields the counts 0 and 0 and a NULL sum and average, and
    [query_summary_stats] raises [TypeError] at [float(None)]: it returns no
    SummaryStats. Whatever row the statement yields, a NULL sum or a NULL
    average makes the call raise [TypeError], nothing normalizes it to zero;
    with both non-null the four fields are the converted values of the
    row. *)
Theorem query_summary_stats_no_rows conn s e w users transactions volume avg :
  exec_summary conn s e = inr (users, transactions, volume, avg) ->
  sql_summary [] = (0, 0, None, None)
  /\ ((users, transactions, volume, avg) = sql_summary [] ->
      query_summary_stats conn s e w = (inl TypeError, w))
  /\ (volume = None \/ avg = None ->
      query_summary_stats conn s e w = (inl TypeError, w))
  /\ (forall v a,
        volume = Some v -> avg = Some a ->
        query_summary_stats conn s e w
        = (inr {| uniqueUsers := users; totalTransactions := transactions;
                  totalVolume := v; avgDeposit := a |}, w)).
Proof.
  intros H.
  assert (Hnull : volume = None \/ avg = None ->
                  query_summary_stats conn s e w = (inl TypeError, w)).
  { unfold query_summary_stats, bind, lift. rewrite H.
    intros [-> | ->]; [reflexivity|]. destruct volume; reflexivity. }
  split; [reflexivity|]. split; [|split].
  - intros Hrow. apply Hnull. left.
    change (sql_summary []) with (0, 0, @None float, @None float) in Hrow.
    congruence.
  - exact Hnull.
  - intros v a -> ->. now apply query_summary_stats_non_null.
Qed.

Lemma query_summary_stats_no_rows_on_empty_table :
  sql_summary [] = (0, 0, None, None)
  /\ ((0, 0, None, None) = sql_summary [] ->
      query_summary_stats empty_conn (lit "2025-08-01") (lit "2025-08-31") world0
      = (inl TypeError, world0))
  /\ (@None float = None \/ @None float = None ->
      query_summary_stats empty_conn (lit "2025-08-01") (lit "2025-08-31") world0
      = (inl TypeError, world0))
  /\ (forall v a,
        None = Some v -> None = Some a ->
        query_summary_stats empty_conn (lit "2025-08-01") (lit "2025-08-31")
          world0
        = (inr {| uniqueUsers := 0; totalTransactions := 0;
                  totalVolume := v; avgDeposit := a |}, world0)).
Proof.
  apply (query_summary_stats_no_rows empty_conn (lit "2025-08-01")
           (lit "2025-08-31") world0 0 0 None None).
  reflexivity.
Defined.

(** On the sample table, whose August rows have amounts, the summary is the
    converted row. *)
Example query_summary_stats_on_sample :
  query_summary_stats sample_conn (lit "2025-08-01") (lit "2025-08-31") world0
  = (inr sample_summary, world0).
Proof. vm_compute. reflexivity. Qed.

(** C2 as it was stated fails on a table without deposits: the result for
    August 2025 is not the all-zero SummaryStats. *)
Lemma query_summary_stats_zero_rows_not_zeros :
  exec_summary empty_conn (lit "2025-08-01") (lit "2025-08-31")
  = inr (sql_summary [])
  /\ fst (query_summary_stats empty_conn (lit "2025-08-01") (lit "2025-08-31")
            world0)
     <> inr {| uniqueUsers := 0; totalTransactions := 0;
               totalVolume := 0%float; avgDeposit := 0%float |}.
Proof. split; [reflexivity|]. vm_compute. discriminate. Qed.

(** C7. Whatever the order of the rows the statement returns, when their
    labels are among the seven known ones [query_buckets] returns exactly
    the buckets of those rows (a permutation of them, so only the buckets
    that were returned), sorted ascending by the lower bound of the amount
    range. With one row per label, as GROUP BY gives, the labels of the
    result are the fixed list [bucket_order] restricted to the labels that
    were returned, which does not depend on the order of the rows. *)
Theorem query_buckets_sorted conn s e rows w :
  exec_buckets conn s e = inr rows ->
  Forall (fun r => In (fst r) bucket_order) rows ->
  exists bs,
    query_buckets conn s e w = (inr bs, w)
    /\ Permutation bs (List.map bucket_of_row rows)
    /\ StronglySorted bucket_le bs
    /\ (NoDup (List.map fst rows) ->
        List.map bucket_range bs = returned_labels rows).
Proof.
  intros Hrows Hall. eexists.
  split; [exact (query_buckets_ok conn s e rows w Hrows Hall)|].
  apply and_assoc. split.
  2:{ intros Hnd.
      destruct (query_buckets_labels conn s e rows w Hrows Hall Hnd)
        as (bs' & Hq & Hl).
      rewrite (query_buckets_ok conn s e rows w Hrows Hall) in Hq.
      injection Hq as <-. exact Hl. }
  set (ks := List.map (fun x => (bucket_rank x, x)) (List.map bucket_of_row rows)).
  assert (Hperm : Permutation (sort_keyed ks) ks) by apply sort_keyed_perm.
  assert (Hks : Forall (fun kx => fst kx = bucket_rank (snd kx)
                                  /\ In (bucket_range (snd kx)) bucket_order) ks).
  { unfold ks. rewrite Forall_forall in *. intros kx Hkx.
    apply in_map_iff in Hkx. destruct Hkx as (b & <- & Hb).
    apply in_map_iff in Hb. destruct Hb as (r & <- & Hr).
    split; [reflexivity|]. now apply Hall. }
  split.
  - rewrite Hperm. unfold ks. rewrite map_map. simpl. rewrite map_id. reflexivity.
  - apply StronglySorted_map.
    apply StronglySorted_weaken with (R := key_le); [|apply sort_keyed_sorted].
    apply (Permutation_Forall (Permutation_sym Hperm)) in Hks.
    rewrite Forall_forall in Hks.
    intros a b Ha Hb Hab.
    destruct (Hks a Ha) as [Hka Hina]. destruct (Hks b Hb) as [Hkb Hinb].
    apply bucket_rank_le; [exact Hina | exact Hinb |].
    unfold key_le in Hab. lia.
Qed.

Lemma query_buckets_sorted_on_sample :
  exists bs,
    query_buckets sample_conn (lit "2025-08-01") (lit "2025-08-31") world0
    = (inr bs, world0)
    /\ Permutation bs (List.map bucket_of_row sample_bucket_rows)
    /\ StronglySorted bucket_le bs
    /\ (NoDup (List.map fst sample_bucket_rows) ->
        List.map bucket_range bs = returned_labels sample_bucket_rows).
Proof.
  apply (query_buckets_sorted sample_conn (lit "2025-08-01") (lit "2025-08-31")
           sample_bucket_rows world0).
  - reflexivity.
  - unfold sample_bucket_rows, bucket_order.
    repeat constructor; simpl; tauto.
Defined.

(** The example of the specification, three deposits in the first, the
    third and the last amount range: one bucket each, in this order, here
    from rows returned highest first. *)
Example query_buckets_three_ranges :
  query_buckets sample_conn (lit "2025-08-01") (lit "2025-08-31") world0
  = (inr [ {| bucket_range := lit "$1-$250"; bucket_count := 1 |};
           {| bucket_range := lit "$500-$750"; bucket_count := 1 |};
           {| bucket_range := lit "$2,500+"; bucket_count := 1 |} ], world0).
Proof. reflexivity. Qed.

(** C10. Given the rows of the statement, [query_buckets] returns a list
    exactly when every label is one of the seven known ones; a row with any
    other label makes [bucket_order.index] raise [ValueError], and that
    exception is what [query_buckets] raises. *)
Theorem query_buckets_total_iff conn s e rows w :
  exec_buckets conn s e = inr rows ->
  ((exists bs, query_buckets conn s e w = (inr bs, w))
   <-> Forall (fun r => In (fst r) bucket_order) rows)
  /\ (Exists (fun r => ~ In (fst r) bucket_order) rows ->
      exists label,
        ~ In label bucket_order
        /\ query_buckets conn s e w = (inl (ValueError_index label), w)).
Proof.
  intros Hrows. split; [split|].
  - intros [bs Hbs]. apply Forall_forall. intros r Hr.
    destruct (in_dec (list_eq_dec N.eq_dec) (fst r) bucket_order) as [Hin|Hout];
      [exact Hin|].
    destruct (query_buckets_raises conn s e rows w Hrows) as (l & _ & Hl).
    + apply Exists_exists. now exists r.
    + congruence.
  - intros Hall. eexists. exact (query_buckets_ok conn s e rows w Hrows Hall).
  - now apply query_buckets_raises.
Qed.

Lemma query_buckets_unknown_label_on_sample :
  query_buckets odd_label_conn (lit "2025-08-01") (lit "2025-08-31") world0
  = (inl (ValueError_index (lit "$0-$1")), world0)
  /\ ((exists bs,
         query_buckets odd_label_conn (lit "2025-08-01") (lit "2025-08-31")
           world0 = (inr bs, world0))
      <-> Forall (fun r => In (fst r) bucket_order)
                 [(lit "$1-$250", 1); (lit "$0-$1", 2)]).
Proof.
  split; [reflexivity|].
  apply (query_buckets_total_iff odd_label_conn (lit "2025-08-01")
           (lit "2025-08-31") [(lit "$1-$250", 1); (lit "$0-$1", 2)] world0).
  reflexivity.
Defined.

(* ================================================================== *)
(** * The cache builder and the entry point *)
(* ================================================================== *)

(** C3 (amended). A run of [query_all_data] that completes has released the
    connection it acquired (as many connections are open as before). When a
    query raises, the error leaves [query_all_data] with the connection
    still open: no path closes it. When connecting fails nothing was
    acquired and the world is unchanged. *)
Theorem query_all_data_connection env w :
  match snowflake env, query_all_data env w with
  | inl _, (_, w') => w' = w
  | inr _, (inr _, w') => open_connections w' = open_connections w
  | inr _, (inl _, w') => open_connections w' = S (open_connections w)
  end.
Proof.
  rewrite query_all_data_eq. destruct (snowflake env) as [err|conn];
    [reflexivity|].
  destruct (build_cache _ _ _); reflexivity.
Qed.

(** C3 as it was stated fails in [flaky_env]: the October range raises, the
    error propagates, and one connection is left open. *)
Lemma query_all_data_error_leaves_connection_open :
  exists w',
    query_all_data flaky_env sample_world = (inl session_expired, w')
    /\ open_connections sample_world = 0%nat
    /\ open_connections w' = 1%nat.
Proof. eexists. repeat split. Qed.

(** C8. After a successful run, every planned range with bounds [s] and [e]
    has its snapshot under the key [s_e], every key of the cache is the key
    of a planned range, and the range of August 2025 is under
    [2025-08-01_2025-08-31]. For a clock between the years 1000 and 9999
    the bounds have the shape [YYYY-MM-DD]. *)
Theorem cache_keyed_by_range env w cache w' :
  query_all_data env w = (inr cache, w') ->
  exists conn,
    snowflake env = inr conn
    /\ (forall name s e,
          In (name, (s, e)) (get_date_ranges (now_ordinal env)) ->
          exists snapshot,
            query_range conn s e w = (inr snapshot, w)
            /\ dict_get (s ++ lit "_" ++ e) cache = Some snapshot)
    /\ (forall k,
          dict_get k cache <> None ->
          exists name s e,
            In (name, (s, e)) (get_date_ranges (now_ordinal env))
            /\ k = s ++ lit "_" ++ e)
    /\ (exists snapshot,
          query_range conn (lit "2025-08-01") (lit "2025-08-31") w
          = (inr snapshot, w)
          /\ dict_get (lit "2025-08-01_2025-08-31") cache = Some snapshot)
    /\ (ordinal_1000_01_01 + 90 <= now_ordinal env <= ordinal_9999_12_31 ->
        forall name s e,
          In (name, (s, e)) (get_date_ranges (now_ordinal env)) ->
          iso_date s = true /\ iso_date e = true).
Proof.
  rewrite query_all_data_eq.
  destruct (snowflake env) as [err|conn]; [discriminate|].
  destruct (build_cache conn _ []) as [err|c] eqn:Hb; [discriminate|].
  intros H. injection H as Hc Hw. subst c w'.
  exists conn. split; [reflexivity|].
  pose proof (build_cache_entries conn _ _ _ Hb
                (planned_starts_no_underscore (now_ordinal env))) as Hentries.
  assert (Hall : forall name s e,
             In (name, (s, e)) (get_date_ranges (now_ordinal env)) ->
             exists snapshot,
               query_range conn s e w = (inr snapshot, w)
               /\ dict_get (s ++ lit "_" ++ e) cache = Some snapshot).
  { intros name s e Hin. destruct (Hentries name s e Hin) as (snap & Hr & Hg).
    exists snap. rewrite query_range_eq, Hr. split; [reflexivity | exact Hg]. }
  split; [exact Hall|]. split; [|split].
  - intros k Hk.
    destruct (in_dec (list_eq_dec N.eq_dec) k
                (List.map range_key (get_date_ranges (now_ordinal env))))
      as [Hin|Hout].
    + apply in_map_iff in Hin. destruct Hin as ([n [s e]] & Hkey & Hin).
      exists n, s, e. split; [exact Hin | now symmetry].
    + rewrite (build_cache_untouched _ _ _ _ _ Hb Hout) in Hk. now elim Hk.
  - apply (Hall (lit "august_2025")). unfold get_date_ranges.
    do 3 right. now left.
  - intros Hclock name s e Hin.
    exact (planned_ranges_iso (now_ordinal env) name s e Hclock Hin).
Qed.

Lemma cache_keyed_by_range_on_sample :
  exists conn,
    snowflake sample_env = inr conn
    /\ (forall name s e,
          In (name, (s, e)) (get_date_ranges (now_ordinal sample_env)) ->
          exists snapshot,
            query_range conn s e world0 = (inr snapshot, world0)
            /\ dict_get (s ++ lit "_" ++ e) sample_built_cache = Some snapshot)
    /\ (forall k,
          dict_get k sample_built_cache <> None ->
          exists name s e,
            In (name, (s, e)) (get_date_ranges (now_ordinal sample_env))
            /\ k = s ++ lit "_" ++ e)
    /\ (exists snapshot,
          query_range conn (lit "2025-08-01") (lit "2025-08-31") world0
          = (inr snapshot, world0)
          /\ dict_get (lit "2025-08-01_2025-08-31") sample_built_cache
             = Some snapshot)
    /\ (ordinal_1000_01_01 + 90 <= now_ordinal sample_env <= ordinal_9999_12_31 ->
        forall name s e,
          In (name, (s, e)) (get_date_ranges (now_ordinal sample_env)) ->
          iso_date s = true /\ iso_date e = true).
Proof.
  apply (cache_keyed_by_range sample_env world0 sample_built_cache world0).
  vm_compute. reflexivity.
Defined.

(** The seven keys of a run on 2025-11-03, in the order of the planner. *)
Example cache_keys_on_sample :
  dict_keys sample_built_cache
  = [lit "2025-10-04_2025-11-03"; lit "2025-09-04_2025-11-03";
     lit "2025-08-05_2025-11-03"; lit "2025-08-01_2025-08-31";
     lit "2025-09-01_2025-09-30"; lit "2025-10-01_2025-10-31";
     lit "2025-11-01_2025-11-30"].
Proof. vm_compute. reflexivity. Qed.

(** C6. A run is all or nothing. If connecting fails, [main] raises that
    error in an unchanged world. If the four queries of any planned range
    raise, [main] raises the error of a failing planned range, the one
    [query_all_data] raised, and [index.html] is as it was. And whenever
    [main] leaves [index.html] changed, [query_all_data] had returned a
    cache with an entry for every planned range, and the change is the one
    [update_html_file] made with that cache. *)
Theorem main_all_or_nothing (floatstr : float -> str) env w :
  (forall err, snowflake env = inl err -> main floatstr env w = (inl err, w))
  /\ (forall conn name s e err,
        snowflake env = inr conn ->
        In (name, (s, e)) (get_date_ranges (now_ordinal env)) ->
        fst (query_range conn s e w) = inl err ->
        exists name' s' e' err' w',
          In (name', (s', e')) (get_date_ranges (now_ordinal env))
          /\ fst (query_range conn s' e' w) = inl err'
          /\ query_all_data env w = (inl err', w')
          /\ main floatstr env w = (inl err', w')
          /\ index_html w' = index_html w)
  /\ (forall r w',
        main floatstr env w = (r, w') ->
        index_html w' <> index_html w ->
        exists cache,
          query_all_data env w = (inr cache, w)
          /\ update_html_file floatstr cache w = (inr tt, w')
          /\ forall name s e,
               In (name, (s, e)) (get_date_ranges (now_ordinal env)) ->
               dict_get (s ++ lit "_" ++ e) cache <> None).
Proof.
  rewrite main_eq, query_all_data_eq. repeat split.
  - intros err ->. reflexivity.
  - intros conn name s e err -> Hin Herr.
    rewrite query_range_eq in Herr. simpl in Herr.
    destruct (build_cache_raises conn _ [] name s e err Hin Herr)
      as (n' & s' & e' & err' & Hin' & Herr' & Hb).
    exists n', s', e', err'. eexists. rewrite Hb, query_range_eq.
    repeat split; [exact Hin' | exact Herr'].
  - intros r w' Hmain Hchanged.
    destruct (snowflake env) as [err|conn] eqn:Hconn.
    { injection Hmain as _ <-. now elim Hchanged. }
    destruct (build_cache conn _ []) as [err|cache] eqn:Hb.
    { injection Hmain as _ <-. now elim Hchanged. }
    exists cache. split; [reflexivity|].
    destruct r as [err|[]].
    { apply update_html_file_raise_keeps_file in Hmain. subst w'.
      now elim Hchanged. }
    split; [exact Hmain|].
    intros name s e Hin.
    destruct (build_cache_entries conn _ _ _ Hb
                (planned_starts_no_underscore (now_ordinal env)) name s e Hin)
      as (snap & _ & Hg).
    unfold cache_key in Hg. rewrite Hg. discriminate.
Qed.

Lemma main_aborts_in_flaky_env :
  exists name' s' e' err' w',
    In (name', (s', e')) (get_date_ranges (now_ordinal flaky_env))
    /\ fst (query_range flaky_conn s' e' sample_world) = inl err'
    /\ query_all_data flaky_env sample_world = (inl err', w')
    /\ main floatstr_integral flaky_env sample_world = (inl err', w')
    /\ index_html w' = index_html sample_world.
Proof.
  apply (proj1 (proj2 (main_all_or_nothing floatstr_integral flaky_env
                         sample_world))
           flaky_conn (lit "october_2025") (lit "2025-10-01")
           (lit "2025-10-31") session_expired).
  - reflexivity.
  - unfold get_date_ranges. do 5 right. left. reflexivity.
  - vm_compute. reflexivity.
Defined.

(** A complete run in [sample_env] succeeds and rewrites only the block. *)
Example main_on_sample :
  main floatstr_integral sample_env sample_world
  = (inr tt,
     mkWorld (Some (sample_pre
                    ++ new_data_cache floatstr_integral sample_built_cache
                    ++ sample_post)) 0).
Proof. vm_compute. reflexivity. Qed.

(** With the connection refused nothing is acquired, queried or written. *)
Example main_offline :
  main floatstr_integral offline_env sample_world
  = (inl (DatabaseError (lit "250001: Could not connect")), sample_world).
Proof. reflexivity. Qed.

(** On a table without deposits the first summary raises, and the run stops
    there: the artifact keeps its text and the connection stays open. *)
Example main_on_empty_table :
  main floatstr_integral empty_env sample_world
  = (inl TypeError, mkWorld (Some sample_html) 1).
Proof. reflexivity. Qed.

(* ================================================================== *)
(** * Further properties of the script *)
(* ================================================================== *)

(** An occurrence anywhere makes the scan succeed, at or before it. *)
Lemma find_from_complete sub a b pos :
  exists p, find_from sub (a ++ sub ++ b) pos = Some p /\ p <= pos + len a.
Proof.
  revert pos. induction a as [|x a IH]; intros pos.
  - exists pos. simpl app. split; [|unfold len; simpl; lia].
    destruct (sub ++ b) eqn:E; simpl.
    + assert (sub = []) as -> by (destruct sub; [reflexivity | discriminate]).
      reflexivity.
    + rewrite <- E, startswith_app. reflexivity.
  - rewrite <- app_comm_cons, find_from_cons.
    destruct (startswith sub (x :: a ++ sub ++ b)).
    + exists pos. split; [reflexivity|]. pose proof (len_nonneg (x :: a)). lia.
    + destruct (IH (pos + 1)) as (p & Hp & Hle). exists p. split; [exact Hp|].
      unfold len in *. simpl List.length. lia.
Qed.

(** X1. With index.html readable, [update_html_file] raises exactly when
    the opening marker is absent from it. The error is then the
    malformed-artifact [ValueError] and the world is as before; a completed
    update leaves the number of open connections alone. No other failure
    exists: a missing closing marker never raises. *)
Theorem update_html_file_raises_iff (floatstr : float -> str) cache w html :
  index_html w = Some html ->
  ((exists err w', update_html_file floatstr cache w = (inl err, w'))
   <-> find html start_marker 0 = -1)
  /\ (forall err w',
        update_html_file floatstr cache w = (inl err, w') ->
        err = malformed_artifact /\ w' = w)
  /\ (forall w',
        update_html_file floatstr cache w = (inr tt, w') ->
        open_connections w' = open_connections w).
Proof.
  intros Hfile.
  destruct (Z.eq_dec (find html start_marker 0) (-1)) as [Hs|Hs].
  - rewrite (update_html_file_no_start floatstr cache w html Hfile Hs).
    repeat split.
    + intros _. exact Hs.
    + intros _. now eexists; eexists.
    + congruence.
    + congruence.
    + discriminate.
  - rewrite (update_html_file_found floatstr cache w html Hfile Hs).
    repeat split.
    + intros (err & w' & H). discriminate.
    + intros H. contradiction.
    + discriminate.
    + discriminate.
    + intros w' [= <-]. reflexivity.
Qed.

Lemma update_html_file_raises_iff_on_sample :
  ((exists err w',
      update_html_file floatstr_integral sample_cache sample_world = (inl err, w'))
   <-> find sample_html start_marker 0 = -1)
  /\ (forall err w',
        update_html_file floatstr_integral sample_cache sample_world
        = (inl err, w') ->
        err = malformed_artifact /\ w' = sample_world)
  /\ (forall w',
        update_html_file floatstr_integral sample_cache sample_world
        = (inr tt, w') ->
        open_connections w' = open_connections sample_world).
Proof.
  apply (update_html_file_raises_iff floatstr_integral sample_cache sample_world
           sample_html).
  reflexivity.
Defined.

(** X2. A completed update leaves the text before the opening marker, then
    the new block, then a tail of the old artifact. In the new artifact the
    opening marker is found at the same index, a closing marker is found
    after it, and every later update, with any cache, completes. *)
Theorem update_html_file_rerunnable (floatstr : float -> str) cache w w1 :
  update_html_file floatstr cache w = (inr tt, w1) ->
  exists html html1 suffix,
    index_html w = Some html
    /\ index_html w1 = Some html1
    /\ html1 = slice_to html (find html start_marker 0)
               ++ new_data_cache floatstr cache ++ suffix
    /\ (exists k, suffix = skipn k html)
    /\ find html1 start_marker 0 = find html start_marker 0
    /\ find html1 end_marker (find html1 start_marker 0) <> -1
    /\ forall floatstr' cache',
         exists w2, update_html_file floatstr' cache' w1 = (inr tt, w2).
Proof.
  intros Hrun.
  destruct (index_html w) as [html|] eqn:Hfile;
    [|unfold update_html_file in Hrun; rewrite Hfile in Hrun; discriminate].
  destruct (Z.eq_dec (find html start_marker 0) (-1)) as [Hs|Hs].
  { rewrite (update_html_file_no_start floatstr cache w html Hfile Hs) in Hrun.
    discriminate. }
  rewrite (update_html_file_found floatstr cache w html Hfile Hs) in Hrun.
  injection Hrun as <-.
  destruct (start_marker_found html Hs) as (pre & rest & Hhtml & Hlen & Hfind).
  destruct (new_data_cache_shape floatstr cache) as (body & _ & Hn).
  assert (Hpre : slice_to html (find html start_marker 0) = pre).
  { rewrite <- Hlen. rewrite Hhtml at 1. apply slice_to_len_app. }
  set (suffix := slice_from html _).
  set (html1 := slice_to html (find html start_marker 0)
                ++ new_data_cache floatstr cache ++ suffix).
  assert (Hs1 : find html1 start_marker 0 = len pre).
  { unfold html1. rewrite Hpre, Hn, find_0, <- !app_assoc.
    rewrite Hhtml in Hfind.
    rewrite (app_assoc pre start_marker) in Hfind |- *.
    rewrite (find_from_stable _ _ _ (body ++ end_marker ++ suffix) _ _ Hfind);
      [reflexivity|].
    rewrite len_app. lia. }
  assert (He1 : find html1 end_marker (len pre) <> -1).
  { unfold html1. rewrite Hpre, Hn, <- !app_assoc, end_marker_search.
    destruct (find_from_complete end_marker body suffix 0) as (p & Hp & _).
    rewrite Hp. pose proof (find_from_bounds _ _ _ _ Hp) as Hb.
    pose proof (len_nonneg pre). rewrite len_start_marker. lia. }
  exists html, html1, suffix. repeat split.
  - exists (Z.to_nat (clamp_index html
                        (find html end_marker (find html start_marker 0)
                         + len end_marker))).
    reflexivity.
  - rewrite Hs1. exact Hlen.
  - rewrite Hs1. exact He1.
  - intros floatstr' cache'. eexists.
    apply (update_html_file_found floatstr' cache'
             (mkWorld (Some html1) (open_connections w)) html1 eq_refl).
    rewrite Hs1. pose proof (len_nonneg pre). lia.
Qed.

Lemma update_html_file_rerunnable_after_truncated :
  exists html html1 suffix,
    index_html truncated_world = Some html
    /\ index_html
         (mkWorld (Some (lit "<script>"
                         ++ new_data_cache floatstr_integral sample_cache
                         ++ lit "onst dataCache = {};</script>")) 0)
       = Some html1
    /\ html1 = slice_to html (find html start_marker 0)
               ++ new_data_cache floatstr_integral sample_cache ++ suffix
    /\ (exists k, suffix = skipn k html)
    /\ find html1 start_marker 0 = find html start_marker 0
    /\ find html1 end_marker (find html1 start_marker 0) <> -1
    /\ forall floatstr' cache',
         exists w2,
           update_html_file floatstr' cache'
             (mkWorld (Some (lit "<script>"
                             ++ new_data_cache floatstr_integral sample_cache
                             ++ lit "onst dataCache = {};</script>")) 0)
           = (inr tt, w2).
Proof.
  apply (update_html_file_rerunnable floatstr_integral sample_cache
           truncated_world).
  vm_compute. reflexivity.
Defined.

Lemma build_cache_succeeds_iff conn date_ranges data_cache :
  (exists cache, build_cache conn date_ranges data_cache = inr cache)
  <-> (forall name s e,
         In (name, (s, e)) date_ranges ->
         exists snapshot, range_result conn s e = inr snapshot).
Proof.
  revert data_cache.
  induction date_ranges as [|[n [s0 e0]] rest IH]; intros data_cache; simpl.
  - split; [intros _ name s e [] | intros _; now eexists].
  - destruct (range_result conn s0 e0) as [err|snap] eqn:E.
    + split; [intros [cache H]; discriminate|].
      intros H. destruct (H n s0 e0 (or_introl eq_refl)) as [snap Hs].
      congruence.
    + rewrite IH. split.
      * intros H name s e [[= <- <- <-]|Hin]; [now exists snap | now apply (H name)].
      * intros H name s e Hin. apply (H name). now right.
Qed.

(** X3. [main] completes exactly when the connection is made, every planned
    range can be queried and index.html is readable and holds the opening
    marker. A completed run leaves no connection open; a failed run leaves
    index.html as it was and at most one connection open. *)
Theorem main_succeeds_iff (floatstr : float -> str) env w :
  ((exists w', main floatstr env w = (inr tt, w'))
   <-> (exists conn html,
          snowflake env = inr conn
          /\ (forall name s e,
                In (name, (s, e)) (get_date_ranges (now_ordinal env)) ->
                exists snapshot, fst (query_range conn s e w) = inr snapshot)
          /\ index_html w = Some html
          /\ find html start_marker 0 <> -1))
  /\ (forall w',
        main floatstr env w = (inr tt, w') ->
        open_connections w' = open_connections w)
  /\ (forall err w',
        main floatstr env w = (inl err, w') ->
        index_html w' = index_html w
        /\ (open_connections w' <= S (open_connections w))%nat).
Proof.
  rewrite main_eq, query_all_data_eq.
  destruct (snowflake env) as [cerr|conn] eqn:Hconn.
  { split; [split|split].
    - intros [w' H]. discriminate.
    - intros (c & html & H & _). discriminate.
    - discriminate.
    - intros err w' H. injection H as _ <-. split; [congruence | simpl; lia]. }
  destruct (build_cache conn (get_date_ranges (now_ordinal env)) [])
    as [berr|cache] eqn:Hb.
  { split; [split|split].
    - intros [w' H]. discriminate.
    - intros (c & html & Hc & Hall & _). injection Hc as <-.
      assert (Hok : exists cache,
                 build_cache conn (get_date_ranges (now_ordinal env)) []
                 = inr cache).
      { apply build_cache_succeeds_iff. intros name s e Hin.
        destruct (Hall name s e Hin) as [snap Hsnap].
        rewrite query_range_eq in Hsnap. now exists snap. }
      destruct Hok as [cache Hcache]. congruence.
    - discriminate.
    - intros err w' H. injection H as _ <-. simpl. split; [congruence | simpl; lia]. }
  assert (Hall : forall name s e,
             In (name, (s, e)) (get_date_ranges (now_ordinal env)) ->
             exists snapshot, fst (query_range conn s e w) = inr snapshot).
  { intros name s e Hin. rewrite query_range_eq. simpl.
    apply (proj1 (build_cache_succeeds_iff conn _ [])
             (ex_intro _ cache Hb) name s e Hin). }
  destruct (index_html w) as [html|] eqn:Hfile.
  2:{ assert (Hu : update_html_file floatstr cache w = (inl FileNotFoundError, w))
        by (unfold update_html_file; rewrite Hfile; reflexivity).
      rewrite Hu. split; [split|split].
      - intros [w' H]. discriminate.
      - intros (c & html & _ & _ & H & _). discriminate.
      - discriminate.
      - intros err w' H. injection H as _ <-. split; [congruence | simpl; lia]. }
  destruct (Z.eq_dec (find html start_marker 0) (-1)) as [Hs|Hs].
  - rewrite (update_html_file_no_start floatstr cache w html Hfile Hs).
    split; [split|split].
    + intros [w' H]. discriminate.
    + intros (c & h & _ & _ & Hh & H). injection Hh as <-. contradiction.
    + discriminate.
    + intros err w' H. injection H as _ <-. split; [congruence | simpl; lia].
  - rewrite (update_html_file_found floatstr cache w html Hfile Hs).
    split; [split|split].
    + intros _. exists conn, html. repeat split; [exact Hall | exact Hs].
    + intros _. now eexists.
    + intros w' H. injection H as <-. reflexivity.
    + discriminate.
Qed.

Lemma lstrip_split s :
  exists l, s = l ++ lstrip s /\ forallb isspace l = true.
Proof.
  induction s as [|c s IH]; simpl.
  - now exists [].
  - destruct (isspace c) eqn:E.
    + destruct IH as (l & Hs & Hl). exists (c :: l). simpl.
      rewrite E, Hl. split; [now f_equal | reflexivity].
    + now exists [].
Qed.

Lemma lstrip_head s c rest : lstrip s = c :: rest -> isspace c = false.
Proof.
  induction s as [|x s IH]; simpl; [discriminate|].
  destruct (isspace x) eqn:E; [exact IH|]. now intros [= <- _].
Qed.

Lemma lstrip_fixed s :
  (forall c rest, s = c :: rest -> isspace c = false) -> lstrip s = s.
Proof.
  destruct s as [|c s]; [reflexivity|]. intros H. simpl.
  now rewrite (H c s eq_refl).
Qed.

Lemma forallb_rev {A} (p : A -> bool) l : forallb p (rev l) = forallb p l.
Proof.
  induction l as [|x l IH]; [reflexivity|]. simpl.
  rewrite forallb_app, IH. simpl. now rewrite andb_true_r, andb_comm.
Qed.

(** [strip] removes a run of whitespace at each end and nothing else. *)
Lemma strip_split s :
  exists l r,
    s = l ++ strip s ++ r
    /\ forallb isspace l = true /\ forallb isspace r = true.
Proof.
  destruct (lstrip_split s) as (l & Hs & Hl).
  destruct (lstrip_split (rev (lstrip s))) as (r & Hr & Hrs).
  exists l, (rev r). unfold strip. repeat split.
  - rewrite Hs at 1. f_equal.
    rewrite <- (rev_involutive (lstrip s)) at 1. rewrite Hr at 1.
    now rewrite rev_app_distr.
  - exact Hl.
  - now rewrite forallb_rev.
Qed.

Lemma strip_trimmed s : trimmed (strip s).
Proof.
  destruct (lstrip_split (rev (lstrip s))) as (r & Hr & Hrs).
  assert (Ht : lstrip s = strip s ++ rev r).
  { rewrite <- (rev_involutive (lstrip s)). rewrite Hr at 1.
    now rewrite rev_app_distr. }
  split.
  - intros c rest Hc. rewrite Hc in Ht. simpl in Ht.
    now apply lstrip_head in Ht.
  - intros front c Hc. unfold strip in Hc.
    apply (f_equal (@rev _)) in Hc.
    rewrite rev_involutive, rev_app_distr in Hc. simpl in Hc.
    now apply lstrip_head in Hc.
Qed.

Lemma strip_fixed s : trimmed s -> strip s = s.
Proof.
  intros [Hhead Hlast]. unfold strip. rewrite (lstrip_fixed s Hhead).
  rewrite lstrip_fixed; [apply rev_involutive|].
  intros c rest Hc. apply (Hlast (rev rest) c).
  rewrite <- (rev_involutive s), Hc. reflexivity.
Qed.

Lemma strip_idempotent s : strip (strip s) = strip s.
Proof. apply strip_fixed, strip_trimmed. Qed.

Lemma institutions_result rows :
  exists result,
    (forall w, institutions rows w = (result, w))
    /\ institutions_outcome rows result.
Proof.
  induction rows as [|[[name count] volume] rows IH].
  - exists (inr []). split; [reflexivity|]. split.
    + intros _. exists []. repeat split; constructor.
    + intros H. inversion H.
  - destruct IH as (result & Hrun & Hnonnull & Hnull).
    destruct volume as [v|].
    + destruct result as [err|tail].
      * exists (inl err). split.
        { intros w. simpl. unfold bind, py_float, ret. now rewrite Hrun. }
        split.
        { intros Hall. inversion Hall as [|? ? _ Hrest]; subst.
          destruct (Hnonnull Hrest) as (insts & H & _). discriminate. }
        { intros Hex. inversion Hex as [? ? H|? ? H]; subst;
            [discriminate | exact (Hnull H)]. }
      * exists (inr ({| inst_name := strip name; inst_count := count;
                        inst_volume := v |} :: tail)).
        split.
        { intros w. simpl. unfold bind, py_float, ret. now rewrite Hrun. }
        split.
        { intros Hall. inversion Hall as [|? ? _ Hrest]; subst.
          destruct (Hnonnull Hrest) as (insts & [= <-] & Hm & Ht).
          eexists. split; [reflexivity|]. split.
          - constructor; [|exact Hm]. now repeat split.
          - constructor; [apply strip_trimmed | exact Ht]. }
        { intros Hex. inversion Hex as [? ? H|? ? H]; subst;
            [discriminate|]. specialize (Hnull H). discriminate. }
    + exists (inl TypeError). split; [reflexivity|]. split.
      * intros Hall. inversion Hall as [|? ? H _]; subst. now elim H.
      * reflexivity.
Qed.

(** X4. Both top-10 queries turn every returned row into an entry with the
    name stripped of surrounding whitespace, the count and the volume, in the
    order of the rows, when every volume is non-null; a null volume makes
    them raise [TypeError]; an error of the data source is passed on. The
    world is not touched. *)
Theorem top_queries_outcome conn s e w :
  (forall rows,
     exec_top_by_frequency conn s e = inr rows ->
     exists result,
       query_top_by_frequency conn s e w = (result, w)
       /\ institutions_outcome rows result)
  /\ (forall rows,
        exec_top_by_volume conn s e = inr rows ->
        exists result,
          query_top_by_volume conn s e w = (result, w)
          /\ institutions_outcome rows result)
  /\ (forall err,
        exec_top_by_frequency conn s e = inl err ->
        query_top_by_frequency conn s e w = (inl err, w))
  /\ (forall err,
        exec_top_by_volume conn s e = inl err ->
        query_top_by_volume conn s e w = (inl err, w)).
Proof.
  unfold query_top_by_frequency, query_top_by_volume, bind, lift.
  repeat split.
  - intros rows ->. destruct (institutions_result rows) as (r & Hrun & Hout).
    exists r. now rewrite Hrun.
  - intros rows ->. destruct (institutions_result rows) as (r & Hrun & Hout).
    exists r. now rewrite Hrun.
  - now intros err ->.
  - now intros err ->.
Qed.

Lemma non_null_nil_iff {A} (l : list (option A)) :
  non_null l = [] <-> Forall (fun o => o = None) l.
Proof.
  induction l as [|[a|] l IH]; simpl.
  - split; [constructor | reflexivity].
  - split; [discriminate | intros H; inversion H; discriminate].
  - rewrite IH. split; [now constructor | intros H; now inversion H].
Qed.

Lemma non_null_length {A} (l : list (option A)) :
  (List.length (non_null l) <= List.length l)%nat.
Proof. induction l as [|[a|] l IH]; simpl; lia. Qed.

Lemma nodup_length {A} (dec : forall x y : A, {x = y} + {x <> y}) l :
  (List.length (nodup dec l) <= List.length l)%nat.
Proof.
  apply NoDup_incl_length; [apply NoDup_nodup|].
  intros x Hx. now apply nodup_In in Hx.
Qed.

(** X5. When the data source computes the summary statement over the
    matching rows: with at least one non-null amount the summary is returned,
    its transaction count is the number of matching rows and its user count
    lies between 0 and the transaction count; with only null amounts (or no
    rows) the call raises [TypeError]. *)
Theorem query_summary_stats_on_rows conn s e w matching :
  exec_summary conn s e = inr (sql_summary matching) ->
  (Exists (fun t => TRANSACTION_AMOUNT t <> None) matching ->
   exists stats,
     query_summary_stats conn s e w = (inr stats, w)
     /\ 0 <= uniqueUsers stats <= totalTransactions stats
     /\ totalTransactions stats = Z.of_nat (List.length matching))
  /\ (Forall (fun t => TRANSACTION_AMOUNT t = None) matching ->
      query_summary_stats conn s e w = (inl TypeError, w)).
Proof.
  intros Hrow. unfold query_summary_stats, bind, lift. rewrite Hrow.
  unfold sql_summary.
  destruct (non_null (List.map TRANSACTION_AMOUNT matching)) as [|a amounts] eqn:E.
  - split.
    + intros Hex. apply non_null_nil_iff in E. exfalso.
      apply Exists_exists in Hex. destruct Hex as (t & Hin & Ht).
      rewrite Forall_forall in E. apply Ht, E. now apply in_map.
    + reflexivity.
  - split.
    + intros _. eexists. split; [reflexivity|].
      cbn [uniqueUsers totalTransactions]. split; [|reflexivity].
      pose proof (nodup_length (list_eq_dec N.eq_dec)
                    (non_null (List.map PRN matching))) as H1.
      pose proof (non_null_length (List.map PRN matching)) as H2.
      rewrite length_map in H2.
      split; [lia | apply Nat2Z.inj_le; etransitivity; [exact H1 | exact H2]].
    + intros Hall. exfalso.
      assert (Hnil : non_null (List.map TRANSACTION_AMOUNT matching) = []).
      { apply non_null_nil_iff. rewrite Forall_forall in *.
        intros o Ho. apply in_map_iff in Ho. destruct Ho as (t & <- & Ht).
        now apply Hall. }
      congruence.
Qed.

Lemma query_summary_stats_on_sample_rows :
  (Exists (fun t => TRANSACTION_AMOUNT t <> None) sample_transactions ->
   exists stats,
     query_summary_stats sample_conn (lit "2025-08-01") (lit "2025-08-31") world0
     = (inr stats, world0)
     /\ 0 <= uniqueUsers stats <= totalTransactions stats
     /\ totalTransactions stats = Z.of_nat (List.length sample_transactions))
  /\ (Forall (fun t => TRANSACTION_AMOUNT t = None) sample_transactions ->
      query_summary_stats sample_conn (lit "2025-08-01") (lit "2025-08-31") world0
      = (inl TypeError, world0)).
Proof.
  apply (query_summary_stats_on_rows sample_conn (lit "2025-08-01")
           (lit "2025-08-31") world0 sample_transactions).
  reflexivity.
Defined.

Lemma sql_bucket_known amount : In (sql_bucket amount) bucket_order.
Proof.
  unfold sql_bucket, bucket_order. destruct amount as [a|]; [|simpl; tauto].
  repeat match goal with
         | |- context [if ?c then _ else _] => destruct c
         end; simpl; tauto.
Qed.

Lemma sql_bucket_rows_labels matching :
  List.map fst (sql_bucket_rows matching)
  = filter (fun label => 0 <? bucket_size matching label) bucket_order.
Proof. unfold sql_bucket_rows. rewrite map_map. simpl. apply map_id. Qed.

(** Two lists with the same elements and the same keys in the same order
    are equal, when no key repeats. *)
Lemma same_keys_same_list {A K} (f : A -> K) (l1 l2 : list A) :
  Permutation l1 l2 -> NoDup (List.map f l2) ->
  List.map f l1 = List.map f l2 -> l1 = l2.
Proof.
  revert l2. induction l1 as [|a l1 IH]; intros [|b l2] Hperm Hnd Hmap;
    try discriminate; [reflexivity|].
  simpl in Hmap. injection Hmap as Hab Hmap.
  assert (a = b) as ->.
  { assert (Hin : In a (b :: l2)) by (apply (Permutation_in _ Hperm); now left).
    destruct Hin as [Hin|Hin]; [now symmetry|].
    simpl in Hnd. inversion Hnd as [|? ? Hnotin _]; subst.
    exfalso. apply Hnotin. rewrite <- Hab. now apply in_map. }
  f_equal. apply IH; [now apply Permutation_cons_inv in Hperm | | exact Hmap].
  simpl in Hnd. now inversion Hnd.
Qed.

Lemma count_indicator (labels : list str) (x : str) :
  NoDup labels -> In x labels ->
  fold_right Z.add 0
    (List.map (fun l => if str_eqb x l then 1 else 0) labels) = 1.
Proof.
  induction labels as [|l labels IH]; intros Hnd Hin; [inversion Hin|].
  inversion Hnd as [|? ? Hnotin Hnd']; subst. simpl.
  destruct (str_eqb x l) eqn:E.
  - apply str_eqb_eq in E. subst l.
    assert (H0 : fold_right Z.add 0
                   (List.map (fun l => if str_eqb x l then 1 else 0) labels) = 0).
    { clear IH Hnd Hnd' Hin. induction labels as [|y labels IH]; [reflexivity|].
      simpl. destruct (str_eqb x y) eqn:E.
      - apply str_eqb_eq in E. subst y. exfalso. apply Hnotin. now left.
      - apply IH. intros H. apply Hnotin. now right. }
    lia.
  - apply str_eqb_neq in E. destruct Hin as [Hin|Hin]; [congruence|].
    rewrite (IH Hnd' Hin). lia.
Qed.

(** Every row is counted in exactly one group. *)
Lemma bucket_sizes_total matching :
  fold_right Z.add 0 (List.map (bucket_size matching) bucket_order)
  = Z.of_nat (List.length matching).
Proof.
  induction matching as [|t matching IH]; [reflexivity|].
  assert (Hstep : forall labels,
             fold_right Z.add 0 (List.map (bucket_size (t :: matching)) labels)
             = fold_right Z.add 0
                 (List.map (fun l => if str_eqb (sql_bucket (TRANSACTION_AMOUNT t)) l
                                     then 1 else 0) labels)
               + fold_right Z.add 0 (List.map (bucket_size matching) labels)).
  { induction labels as [|l labels IHl]; [reflexivity|].
    simpl fold_right. rewrite IHl. unfold bucket_size at 1. simpl filter.
    destruct (str_eqb (sql_bucket (TRANSACTION_AMOUNT t)) l);
      unfold bucket_size; simpl List.length; lia. }
  rewrite Hstep, IH, count_indicator;
    [simpl List.length; lia | apply bucket_order_nodup | apply sql_bucket_known].
Qed.

Lemma fold_add_filter_positive (g : str -> Z) (labels : list str) :
  (forall l, 0 <= g l) ->
  fold_right Z.add 0 (List.map g (filter (fun l => 0 <? g l) labels))
  = fold_right Z.add 0 (List.map g labels).
Proof.
  intros Hg. induction labels as [|l labels IH]; [reflexivity|]. simpl.
  destruct (0 <? g l) eqn:E; simpl; rewrite IH; [reflexivity|].
  apply Z.ltb_ge in E. specialize (Hg l). lia.
Qed.

(** X6. When the data source returns the groups of the bucket statement
    over the matching rows, in any order, [query_buckets] returns them in
    the order of [bucket_order]; the counts add up to the number of matching
    rows, and every bucket returned has a positive count (empty buckets are
    absent, not zero). *)
Theorem query_buckets_on_rows conn s e w matching rows :
  exec_buckets conn s e = inr rows ->
  Permutation rows (sql_bucket_rows matching) ->
  query_buckets conn s e w
  = (inr (List.map bucket_of_row (sql_bucket_rows matching)), w)
  /\ total_count (List.map bucket_of_row (sql_bucket_rows matching))
     = Z.of_nat (List.length matching)
  /\ Forall (fun b => 0 < bucket_count b)
            (List.map bucket_of_row (sql_bucket_rows matching)).
Proof.
  intros Hrows Hperm.
  assert (Hlabels : Permutation (List.map fst rows)
                      (List.map fst (sql_bucket_rows matching)))
    by now apply Permutation_map.
  assert (Hnd0 : NoDup (List.map fst (sql_bucket_rows matching))).
  { rewrite sql_bucket_rows_labels. apply NoDup_filter, bucket_order_nodup. }
  assert (Hnd : NoDup (List.map fst rows))
    by exact (Permutation_NoDup (Permutation_sym Hlabels) Hnd0).
  assert (Hall : Forall (fun r => In (fst r) bucket_order) rows).
  { apply Forall_forall. intros r Hr.
    assert (Hin : In (fst r) (List.map fst (sql_bucket_rows matching)))
      by (apply (Permutation_in _ Hlabels); now apply in_map).
    rewrite sql_bucket_rows_labels in Hin. apply filter_In in Hin. tauto. }
  split; [|split].
  - destruct (query_buckets_labels conn s e rows w Hrows Hall Hnd)
      as (bs & Hq & Hl).
    rewrite Hq. do 2 f_equal.
    assert (Hbs : Permutation bs (List.map bucket_of_row rows)).
    { rewrite (query_buckets_ok conn s e rows w Hrows Hall) in Hq.
      injection Hq as <-. rewrite sort_keyed_perm, map_map. simpl.
      rewrite map_id. reflexivity. }
    apply (same_keys_same_list bucket_range).
    + rewrite Hbs. now apply Permutation_map.
    + rewrite map_map. exact Hnd0.
    + rewrite Hl, map_map.
      change (List.map (fun x => bucket_range (bucket_of_row x))
                       (sql_bucket_rows matching))
        with (List.map fst (sql_bucket_rows matching)).
      rewrite sql_bucket_rows_labels. unfold returned_labels.
      apply filter_ext_in. intros label Hlabel.
      apply eq_true_iff_eq. rewrite existsb_str_eqb, Z.ltb_lt.
      split.
      * intros Hin. apply (Permutation_in _ Hlabels) in Hin.
        rewrite sql_bucket_rows_labels in Hin. apply filter_In in Hin.
        now apply Z.ltb_lt.
      * intros Hpos. apply (Permutation_in _ (Permutation_sym Hlabels)).
        rewrite sql_bucket_rows_labels. apply filter_In.
        split; [exact Hlabel | now apply Z.ltb_lt].
  - unfold total_count.
    replace (List.map bucket_count
               (List.map bucket_of_row (sql_bucket_rows matching)))
      with (List.map (bucket_size matching)
              (filter (fun l => 0 <? bucket_size matching l) bucket_order))
      by (unfold sql_bucket_rows; rewrite !map_map; reflexivity).
    rewrite (fold_add_filter_positive (bucket_size matching)).
    + apply bucket_sizes_total.
    + intros l. unfold bucket_size. lia.
  - apply Forall_forall. intros b Hb. apply in_map_iff in Hb.
    destruct Hb as (r & <- & Hr). unfold sql_bucket_rows in Hr.
    apply in_map_iff in Hr. destruct Hr as (l & <- & Hl).
    apply filter_In in Hl. simpl. now apply Z.ltb_lt.
Qed.

Lemma query_buckets_on_sample_rows :
  query_buckets sample_conn (lit "2025-08-01") (lit "2025-08-31") world0
  = (inr (List.map bucket_of_row (sql_bucket_rows sample_transactions)), world0)
  /\ total_count (List.map bucket_of_row (sql_bucket_rows sample_transactions))
     = Z.of_nat (List.length sample_transactions)
  /\ Forall (fun b => 0 < bucket_count b)
            (List.map bucket_of_row (sql_bucket_rows sample_transactions)).
Proof.
  apply (query_buckets_on_rows sample_conn (lit "2025-08-01") (lit "2025-08-31")
           world0 sample_transactions sample_bucket_rows).
  - reflexivity.
  - change (sql_bucket_rows sample_transactions)
      with ([(lit "$1-$250", 1); (lit "$500-$750", 1)] ++ [(lit "$2,500+", 1)]).
    apply (Permutation_cons_append
             [(lit "$1-$250", 1); (lit "$500-$750", 1)] (lit "$2,500+", 1)).
Defined.

(** A negative and a null amount are counted in the last bucket. *)
Example sql_bucket_edges :
  sql_bucket (Some (-5)%float) = lit "$2,500+"
  /\ sql_bucket (Some 0.5%float) = lit "$1-$250"
  /\ sql_bucket (Some 250%float) = lit "$250-$500"
  /\ sql_bucket None = lit "$2,500+".
Proof. repeat split; vm_compute; reflexivity. Qed.

Lemma dict_keys_set {V} (k : str) (v : V) (d : dict V) :
  dict_keys (dict_set k v d)
  = if is_key d k then dict_keys d else dict_keys d ++ [k].
Proof.
  unfold is_key, dict_keys. induction d as [|[k' v'] d IH]; simpl.
  - reflexivity.
  - destruct (str_eqb k' k) eqn:E; simpl.
    + apply str_eqb_eq in E. subst k'. now rewrite str_eqb_refl.
    + assert (E' : str_eqb k k' = false).
      { apply str_eqb_neq. apply str_eqb_neq in E. congruence. }
      rewrite E', IH. simpl. now destruct (existsb (str_eqb k) (List.map fst d)).
Qed.

Lemma is_key_in {V} (d : dict V) k : is_key d k = true <-> In k (dict_keys d).
Proof. apply existsb_str_eqb. Qed.

Lemma first_occurrences_in l k : In k (first_occurrences l) <-> In k l.
Proof.
  induction l as [|x l IH]; simpl; [tauto|].
  rewrite filter_In, IH. split.
  - tauto.
  - intros [H|H]; [now left|].
    destruct (str_eqb x k) eqn:E.
    + apply str_eqb_eq in E. now left.
    + right. split; [exact H | reflexivity].
Qed.

Lemma first_occurrences_nodup l : NoDup (first_occurrences l).
Proof.
  induction l as [|x l IH]; simpl; constructor.
  - rewrite filter_In. intros [_ H]. now rewrite str_eqb_refl in H.
  - now apply NoDup_filter.
Qed.

Lemma first_occurrences_fixed l : NoDup l -> first_occurrences l = l.
Proof.
  induction 1 as [|x l Hx Hnd IH]; simpl; [reflexivity|].
  rewrite IH. f_equal. apply forallb_filter_id. apply forallb_forall.
  intros y Hy. apply negb_true_iff, str_eqb_neq. congruence.
Qed.

Lemma first_occurrences_length l :
  (List.length (first_occurrences l) <= List.length l)%nat.
Proof.
  induction l as [|x l IH]; simpl; [lia|].
  pose proof (filter_length_le (fun k' => negb (str_eqb x k')) (first_occurrences l)).
  lia.
Qed.

Lemma filter_filter {A} (f g : A -> bool) l :
  filter f (filter g l) = filter (fun x => f x && g x) l.
Proof.
  induction l as [|x l IH]; [reflexivity|]. simpl.
  destruct (g x); simpl; [|now rewrite andb_false_r].
  rewrite andb_true_r. destruct (f x); now rewrite IH.
Qed.

Lemma str_eqb_sym a b : str_eqb a b = str_eqb b a.
Proof.
  destruct (str_eqb a b) eqn:E.
  - apply str_eqb_eq in E. subst. symmetry. apply str_eqb_refl.
  - symmetry. apply str_eqb_neq. apply str_eqb_neq in E. congruence.
Qed.

Lemma build_cache_keys conn date_ranges data_cache cache :
  build_cache conn date_ranges data_cache = inr cache ->
  dict_keys cache
  = dict_keys data_cache
    ++ filter (fun k => negb (is_key data_cache k))
              (first_occurrences (List.map range_key date_ranges)).
Proof.
  revert data_cache.
  induction date_ranges as [|[n [s e]] rest IH]; intros data_cache Hb;
    simpl in Hb.
  - injection Hb as <-. simpl. now rewrite app_nil_r.
  - destruct (range_result conn s e) as [err|snap]; [discriminate|].
    rewrite (IH _ Hb). simpl List.map. simpl first_occurrences.
    change (range_key (n, (s, e))) with (cache_key s e).
    set (k := cache_key s e).
    set (fo := first_occurrences (List.map range_key rest)).
    assert (Hkeys := dict_keys_set k snap data_cache).
    rewrite Hkeys at 1. simpl filter.
    destruct (is_key data_cache k) eqn:Ek; simpl negb; cbv iota.
    + f_equal. rewrite filter_filter. apply filter_ext_in. intros x _.
      unfold is_key at 1 2. rewrite Hkeys.
      destruct (existsb (str_eqb x) (dict_keys data_cache)) eqn:Ex;
        [reflexivity|]. simpl.
      destruct (str_eqb k x) eqn:E; [|reflexivity].
      apply str_eqb_eq in E. subst x. unfold is_key in Ek. congruence.
    + rewrite <- app_assoc. simpl. do 2 f_equal.
      rewrite filter_filter. apply filter_ext_in. intros x _.
      unfold is_key at 1 2. rewrite Hkeys, existsb_app. simpl.
      rewrite orb_false_r, negb_orb.
      now rewrite (str_eqb_sym x k).
Qed.

Lemma first_occurrences_nonempty l :
  l <> [] -> (1 <= List.length (first_occurrences l))%nat.
Proof. destruct l; [congruence | simpl; lia]. Qed.

(** X7. The cache of a completed [query_all_data] has the planned keys in
    the order the planner lists them, each once, at its first occurrence:
    between one and seven entries, and exactly the seven planned keys when
    these are distinct. *)
Theorem cache_keys_in_planner_order env w cache w' :
  query_all_data env w = (inr cache, w') ->
  dict_keys cache
  = first_occurrences (List.map range_key (get_date_ranges (now_ordinal env)))
  /\ NoDup (dict_keys cache)
  /\ (1 <= List.length cache <= 7)%nat
  /\ (NoDup (List.map range_key (get_date_ranges (now_ordinal env))) ->
      dict_keys cache
      = List.map range_key (get_date_ranges (now_ordinal env))).
Proof.
  rewrite query_all_data_eq.
  destruct (snowflake env) as [err|conn]; [discriminate|].
  destruct (build_cache conn _ []) as [err|c] eqn:Hb; [discriminate|].
  intros H. injection H as -> _.
  apply build_cache_keys in Hb.
  assert (Hkeys : dict_keys cache
                  = first_occurrences
                      (List.map range_key (get_date_ranges (now_ordinal env)))).
  { rewrite Hb. change (dict_keys (@nil (str * RangeSnapshot))) with (@nil str).
    rewrite app_nil_l. apply forallb_filter_id, forallb_forall.
    intros k _. reflexivity. }
  clear Hb.
  assert (Hlen : List.length cache = List.length (dict_keys cache))
    by (symmetry; apply length_map).
  split; [exact Hkeys|]. split; [|split; [split|]].
  - rewrite Hkeys. apply first_occurrences_nodup.
  - rewrite Hlen, Hkeys. apply first_occurrences_nonempty.
    unfold get_date_ranges. discriminate.
  - rewrite Hlen, Hkeys.
    etransitivity; [apply first_occurrences_length|].
    rewrite length_map. reflexivity.
  - intros Hnd. rewrite Hkeys. now apply first_occurrences_fixed.
Qed.

Lemma cache_keys_in_planner_order_on_sample :
  dict_keys sample_built_cache
  = first_occurrences
      (List.map range_key (get_date_ranges (now_ordinal sample_env)))
  /\ NoDup (dict_keys sample_built_cache)
  /\ (1 <= List.length sample_built_cache <= 7)%nat
  /\ (NoDup (List.map range_key (get_date_ranges (now_ordinal sample_env))) ->
      dict_keys sample_built_cache
      = List.map range_key (get_date_ranges (now_ordinal sample_env))).
Proof.
  apply (cache_keys_in_planner_order sample_env world0 sample_built_cache world0).
  vm_compute. reflexivity.
Defined.

(** On 2025-08-31 the last 30 days are August 2025: six keys. *)
Example cache_keys_on_month_end :
  dict_keys month_end_cache
  = [lit "2025-08-01_2025-08-31"; lit "2025-07-02_2025-08-31";
     lit "2025-06-02_2025-08-31"; lit "2025-09-01_2025-09-30";
     lit "2025-10-01_2025-10-31"; lit "2025-11-01_2025-11-30"].
Proof. vm_compute. reflexivity. Qed.

Section DumpsChars.

Variable floatstr : float -> str.
Variable P : char -> Prop.
Variable Q : str -> Prop.
Variable F : float -> Prop.
Hypothesis P_structural : forall c, structural c -> P c.
Hypothesis P_string : forall s, Q s -> Forall P (encode_string s).
Hypothesis P_float : forall f, F f -> Forall P (floatstr f).

Lemma Forall_join sep (l : list str) :
  Forall P sep -> Forall (Forall P) l -> Forall P (join sep l).
Proof.
  intros Hsep Hl. induction Hl as [|x l Hx Hl IH]; simpl; [constructor|].
  destruct l as [|y l]; [exact Hx|].
  apply Forall_app. split; [exact Hx|]. apply Forall_app. now split.
Qed.

Lemma newline_indent_structural indent level :
  Forall P (newline_indent indent level).
Proof.
  unfold newline_indent. constructor.
  - apply P_structural. unfold structural. simpl. tauto.
  - apply Forall_forall. intros c Hc. apply repeat_spec in Hc. subst.
    apply P_structural. unfold structural. simpl. tauto.
Qed.

Lemma string_of_uint_digits d :
  Forall P (lit (NilEmpty.string_of_uint d)).
Proof.
  induction d; simpl NilEmpty.string_of_uint;
    [constructor
    | rewrite lit_cons; constructor;
      [apply P_structural; unfold structural; simpl; tauto | assumption] ..].
Qed.

Lemma int_repr_structural z : Forall P (int_repr z).
Proof.
  unfold int_repr, NilZero.string_of_int, NilZero.string_of_uint.
  destruct (Z.to_int z) as [d|d].
  - destruct d; try apply string_of_uint_digits.
    repeat constructor. apply P_structural. unfold structural. simpl. tauto.
  - rewrite lit_cons. constructor;
      [apply P_structural; unfold structural; simpl; tauto|].
    destruct d; try apply string_of_uint_digits.
    repeat constructor. apply P_structural. unfold structural. simpl. tauto.
Qed.

Lemma lit_structural (s : string) :
  Forall structural (lit s) -> Forall P (lit s).
Proof. apply Forall_impl. exact P_structural. Qed.

Lemma dumps_level_chars indent :
  forall j level, json_all Q F j -> Forall P (dumps_level floatstr indent level j).
Proof.
  fix IH 1. intros [z|f|s|items|items] level Hj; simpl in Hj.
  - apply int_repr_structural.
  - now apply P_float.
  - now apply P_string.
  - destruct items as [|x items]; [apply lit_structural; repeat constructor;
                                   unfold structural; simpl; tauto|].
    cbn [dumps_level].
    apply Forall_app; split;
      [apply lit_structural; repeat constructor; unfold structural; simpl; tauto|].
    apply Forall_app; split; [apply newline_indent_structural|].
    apply Forall_app; split.
    + apply Forall_join.
      * apply Forall_app; split; [|apply newline_indent_structural].
        apply lit_structural; repeat constructor; unfold structural; simpl; tauto.
      * revert Hj. generalize (x :: items). clear x items.
        induction l as [|y l IHl]; intros Hl; cbn [List.map]; constructor.
        -- apply IH. apply Hl.
        -- apply IHl. apply Hl.
    + apply Forall_app; split; [apply newline_indent_structural|].
      apply lit_structural; repeat constructor; unfold structural; simpl; tauto.
  - destruct items as [|x items]; [apply lit_structural; repeat constructor;
                                   unfold structural; simpl; tauto|].
    cbn [dumps_level].
    apply Forall_app; split;
      [apply lit_structural; repeat constructor; unfold structural; simpl; tauto|].
    apply Forall_app; split; [apply newline_indent_structural|].
    apply Forall_app; split.
    + apply Forall_join.
      * apply Forall_app; split; [|apply newline_indent_structural].
        apply lit_structural; repeat constructor; unfold structural; simpl; tauto.
      * revert Hj. generalize (x :: items). clear x items.
        induction l as [|[k v] l IHl]; intros Hl; cbn [List.map]; constructor.
        -- destruct Hl as (Hk & Hv & _). cbn [fst snd] in Hk, Hv.
           apply Forall_app; split; [now apply P_string|].
           apply Forall_app; split;
             [apply lit_structural; repeat constructor;
              unfold structural; simpl; tauto|].
           now apply IH.
        -- apply IHl. apply Hl.
    + apply Forall_app; split; [apply newline_indent_structural|].
      apply lit_structural; repeat constructor; unfold structural; simpl; tauto.
Qed.

End DumpsChars.

Lemma json_all_list Q F {A} (g : A -> json) (l : list A) :
  Forall (fun x => json_all Q F (g x)) l -> json_all Q F (JList (List.map g l)).
Proof. induction 1 as [|x l Hx _ IH]; simpl; [exact I | now split]. Qed.

Lemma json_of_cache_all (Q : str -> Prop) (F : float -> Prop) (c : Cache) :
  Forall Q field_names ->
  Forall Q (cache_strings c) ->
  (forall f, F f) ->
  json_all Q F (json_of_cache c).
Proof.
  intros Hfields Hstrings HF.
  assert (Hf : forall name, In name field_names -> Q name)
    by (now apply Forall_forall).
  unfold json_of_cache.
  induction c as [|[k r] c IH]; [exact I|].
  simpl in Hstrings. inversion Hstrings as [|? ? Hk Hrest]; subst.
  apply Forall_app in Hrest. destruct Hrest as [Hr Hc].
  unfold snapshot_strings in Hr.
  apply Forall_app in Hr. destruct Hr as [Hb Hr].
  apply Forall_app in Hr. destruct Hr as [Hfreq Hvol].
  rewrite Forall_forall in Hb, Hfreq, Hvol.
  cbn [List.map fold_right json_all fst snd]. split; [exact Hk|].
  split; [|exact (IH Hc)].
  unfold json_of_snapshot. cbn [fold_right json_all fst snd].
  assert (Hinst : forall l,
             (forall s, In s (List.map inst_name l) -> Q s) ->
             json_all Q F (JList (List.map json_of_institution l))).
  { intros l Hl. apply json_all_list, Forall_forall. intros i Hi.
    unfold json_of_institution. cbn [fold_right json_all fst snd].
    repeat split; try apply HF; try (apply Hf; unfold field_names; simpl; tauto).
    apply Hl. now apply in_map. }
  repeat split; try apply HF;
    try (apply Hf; unfold field_names; simpl; tauto).
  - apply json_all_list, Forall_forall. intros b Hbin.
    unfold json_of_bucket. cbn [fold_right json_all fst snd].
    repeat split; try (apply Hf; unfold field_names; simpl; tauto).
    apply Hb. now apply in_map.
  - now apply Hinst.
  - now apply Hinst.
Qed.

Lemma structural_ascii c : structural c -> ascii_text c.
Proof.
  unfold structural, ascii_text. simpl.
  intros H. repeat destruct H as [H|H]; subst; try lia; try contradiction.
Qed.

Lemma structural_not_semicolon c : structural c -> c <> semicolon.
Proof.
  unfold structural, semicolon. simpl.
  intros H. repeat destruct H as [H|H]; subst; try discriminate; try contradiction.
Qed.

Lemma hex_digit_range n :
  (n < 16)%N -> (48 <= hex_digit n <= 57 \/ 97 <= hex_digit n <= 102)%N.
Proof.
  intros H. unfold hex_digit. destruct (n <? 10)%N eqn:E.
  - apply N.ltb_lt in E. lia.
  - apply N.ltb_ge in E. lia.
Qed.

Lemma u_escape_chars (P : char -> Prop) n :
  P 92%N -> P 117%N ->
  (forall c, (48 <= c <= 57 \/ 97 <= c <= 102)%N -> P c) ->
  Forall P (u_escape n).
Proof.
  intros Hb Hu Hx. unfold u_escape.
  repeat constructor; try assumption;
    apply Hx, hex_digit_range, N.mod_lt; discriminate.
Qed.

Lemma escape_char_chars (P : char -> Prop) c :
  (forall x, In x [92; 34; 98; 102; 110; 114; 116; 117]%N -> P x) ->
  (forall x, (48 <= x <= 57 \/ 97 <= x <= 102)%N -> P x) ->
  ((32 <= c <= 126)%N -> P c) ->
  Forall P (escape_char c).
Proof.
  intros Hshort Hhex Hc. unfold escape_char.
  assert (Hu : forall n, Forall P (u_escape n))
    by (intros n; apply u_escape_chars;
        [apply Hshort; simpl; tauto .. | exact Hhex]).
  do 7 (match goal with
        | |- Forall P (if ?b then _ else _) =>
            destruct b; [repeat constructor; apply Hshort; simpl; tauto|]
        end).
  destruct ((32 <=? c) && (c <=? 126))%N eqn:E.
  - constructor; [|constructor]. apply Hc.
    apply andb_prop in E. destruct E as [H1 H2].
    apply N.leb_le in H1. apply N.leb_le in H2. lia.
  - destruct (c <? 65536)%N; [apply Hu|].
    cbv zeta. apply Forall_app; split; apply Hu.
Qed.

Lemma encode_string_chars (P : char -> Prop) s :
  (forall x, In x [92; 34; 98; 102; 110; 114; 116; 117]%N -> P x) ->
  (forall x, (48 <= x <= 57 \/ 97 <= x <= 102)%N -> P x) ->
  Forall (fun c => (32 <= c <= 126)%N -> P c) s ->
  Forall P (encode_string s).
Proof.
  intros Hshort Hhex Hs. unfold encode_string.
  apply Forall_app; split; [repeat constructor; apply Hshort; simpl; tauto|].
  apply Forall_app; split; [|repeat constructor; apply Hshort; simpl; tauto].
  induction Hs as [|c s Hc _ IH]; simpl; [constructor|].
  apply Forall_app; split; [now apply escape_char_chars | exact IH].
Qed.

Lemma encode_string_ascii s : Forall ascii_text (encode_string s).
Proof.
  apply encode_string_chars.
  - unfold ascii_text. simpl. intros x H.
    repeat destruct H as [H|H]; subst; try lia; try contradiction.
  - unfold ascii_text. lia.
  - apply Forall_forall. unfold ascii_text. intros c _ H. now right.
Qed.

Lemma encode_string_no_semicolon s :
  ~ In semicolon s -> Forall (fun c => c <> semicolon) (encode_string s).
Proof.
  intros Hs. apply encode_string_chars.
  - unfold semicolon. simpl. intros x H.
    repeat destruct H as [H|H]; subst; try discriminate; try contradiction.
  - unfold semicolon. lia.
  - apply Forall_forall. intros c Hc _ ->. contradiction.
Qed.

Lemma Forall_slice_to (P : char -> Prop) s i : Forall P s -> Forall P (slice_to s i).
Proof.
  intros H. unfold slice_to.
  rewrite <- (firstn_skipn (Z.to_nat (clamp_index s i)) s) in H.
  now apply Forall_app in H.
Qed.

Lemma Forall_slice_from (P : char -> Prop) s i :
  Forall P s -> Forall P (slice_from s i).
Proof.
  intros H. unfold slice_from.
  rewrite <- (firstn_skipn (Z.to_nat (clamp_index s i)) s) in H.
  now apply Forall_app in H.
Qed.

(** The characters of the block are those of the two literals of the
    f-string and those [json.dumps] writes. *)
Lemma new_data_cache_chars (floatstr : float -> str) (P : char -> Prop)
  (Q : str -> Prop) cache :
  (forall c, structural c -> P c) ->
  Forall P (lit "const dataCache = ") ->
  Forall P (lit ";") ->
  (forall s, Q s -> Forall P (encode_string s)) ->
  (forall f, Forall P (floatstr f)) ->
  Forall Q field_names ->
  Forall Q (cache_strings cache) ->
  Forall P (new_data_cache floatstr cache).
Proof.
  intros Hst Hopen Hsemi Hstr Hfl Hfields Hcache. unfold new_data_cache.
  apply Forall_app; split; [exact Hopen|].
  apply Forall_app; split.
  - apply Forall_slice_to. unfold dumps.
    apply (dumps_level_chars floatstr P Q (fun _ => True)); try assumption.
    + intros f _. apply Hfl.
    + now apply json_of_cache_all.
  - change (lit "        };") with (repeat 32%N 8 ++ [125%N] ++ lit ";").
    apply Forall_app; split.
    + apply Forall_forall. intros c Hc. apply repeat_spec in Hc. subst.
      apply Hst. unfold structural. simpl. tauto.
    + constructor; [|exact Hsemi]. apply Hst. unfold structural. simpl. tauto.
Qed.

(** The sample float printer writes digits, a minus sign and a dot, or
    one of the names Infinity and NaN. *)
Lemma floatstr_integral_chars (P : char -> Prop) :
  (forall c, structural c -> P c) ->
  P 46%N -> Forall P (lit "Infinity") -> Forall P (lit "NaN") ->
  forall f, Forall P (floatstr_integral f).
Proof.
  intros Hst Hdot Hinf Hnan f. unfold floatstr_integral.
  assert (Hminus : P 45%N) by (apply Hst; unfold structural; simpl; tauto).
  assert (Hzero : P 48%N) by (apply Hst; unfold structural; simpl; tauto).
  destruct (Prim2SF f) as [s|s| |s m e].
  - destruct s; repeat constructor; assumption.
  - destruct s; [constructor; [exact Hminus | exact Hinf] | exact Hinf].
  - exact Hnan.
  - apply Forall_app; split;
      [destruct s; repeat constructor; exact Hminus|].
    apply Forall_app; split; [now apply int_repr_structural|].
    repeat constructor; assumption.
Qed.

Lemma floatstr_integral_without_semicolon f :
  ~ In semicolon (floatstr_integral f).
Proof.
  intros H.
  pose proof (floatstr_integral_chars (fun c => c <> semicolon)
                structural_not_semicolon) as Hall.
  assert (Hf : Forall (fun c => c <> semicolon) (floatstr_integral f)).
  { apply Hall; [discriminate | |];
      apply Forall_forall; intros c Hc ->; vm_compute in Hc;
      repeat destruct Hc as [Hc|Hc]; try discriminate Hc; try contradiction. }
  rewrite Forall_forall in Hf. now apply (Hf _ H).
Qed.

Lemma floatstr_integral_ascii f : Forall ascii_text (floatstr_integral f).
Proof.
  apply (floatstr_integral_chars ascii_text structural_ascii).
  - unfold ascii_text. lia.
  - apply Forall_forall. intros c Hc. unfold ascii_text. vm_compute in Hc.
    repeat destruct Hc as [Hc|Hc]; subst; try lia; try contradiction.
  - apply Forall_forall. intros c Hc. unfold ascii_text. vm_compute in Hc.
    repeat destruct Hc as [Hc|Hc]; subst; try lia; try contradiction.
Qed.

Lemma sample_conn_names : names_without_semicolon sample_conn.
Proof.
  intros s e rows [H|H]; injection H as <-;
    repeat constructor; vm_compute; intros H;
    repeat destruct H as [H|H]; try discriminate H; try contradiction.
Qed.

(** X8. With a float printer that writes printable ASCII, the block is
    printable ASCII (and newlines) whatever the strings of the cache hold,
    since [json.dumps] escapes the rest; every character of the updated
    artifact is such a character or one of the old artifact. *)
Theorem update_html_file_writes_ascii (floatstr : float -> str) cache w w1 :
  (forall f, Forall ascii_text (floatstr f)) ->
  update_html_file floatstr cache w = (inr tt, w1) ->
  Forall ascii_text (new_data_cache floatstr cache)
  /\ exists html html1,
       index_html w = Some html
       /\ index_html w1 = Some html1
       /\ Forall (fun c => ascii_text c \/ In c html) html1.
Proof.
  intros Hfl Hrun.
  assert (Hblock : Forall ascii_text (new_data_cache floatstr cache)).
  { apply (new_data_cache_chars floatstr ascii_text (fun _ => True)).
    - exact structural_ascii.
    - apply Forall_forall. intros c Hc. unfold ascii_text.
      vm_compute in Hc. repeat destruct Hc as [Hc|Hc]; subst; try lia;
        try contradiction.
    - change (Forall ascii_text [59%N]).
      constructor; [unfold ascii_text; lia | constructor].
    - intros s _. apply encode_string_ascii.
    - exact Hfl.
    - apply Forall_forall. intros s _. exact I.
    - apply Forall_forall. intros s _. exact I. }
  split; [exact Hblock|].
  destruct (index_html w) as [html|] eqn:Hfile;
    [|unfold update_html_file in Hrun; rewrite Hfile in Hrun; discriminate].
  destruct (Z.eq_dec (find html start_marker 0) (-1)) as [Hs|Hs].
  { rewrite (update_html_file_no_start floatstr cache w html Hfile Hs) in Hrun.
    discriminate. }
  rewrite (update_html_file_found floatstr cache w html Hfile Hs) in Hrun.
  injection Hrun as <-.
  exists html,
    (slice_to html (find html start_marker 0)
     ++ new_data_cache floatstr cache
     ++ slice_from html
          (find html end_marker (find html start_marker 0) + len end_marker)).
  split; [reflexivity|]. split; [reflexivity|].
  assert (Hold : Forall (fun c => ascii_text c \/ In c html) html)
    by (apply Forall_forall; intros c Hc; now right).
  apply Forall_app; split; [now apply Forall_slice_to|].
  apply Forall_app; split; [|now apply Forall_slice_from].
  eapply Forall_impl; [|exact Hblock]. intros c Hc. now left.
Qed.

Lemma update_html_file_writes_ascii_on_sample :
  Forall ascii_text (new_data_cache floatstr_integral hostile_cache)
  /\ exists html html1,
       index_html sample_world = Some html
       /\ index_html
            (snd (update_html_file floatstr_integral hostile_cache sample_world))
          = Some html1
       /\ Forall (fun c => ascii_text c \/ In c html) html1.
Proof.
  apply (update_html_file_writes_ascii floatstr_integral hostile_cache
           sample_world).
  - exact floatstr_integral_ascii.
  - reflexivity.
Defined.

(** ** A cache without semicolons *)

Lemma end_marker_not_before (x : str) :
  Forall (fun c => c <> semicolon) x -> x <> [] ->
  startswith end_marker (x ++ end_marker) = false.
Proof.
  intros Hx Hne.
  destruct (startswith end_marker (x ++ end_marker)) eqn:E; [|reflexivity].
  exfalso. apply startswith_split in E. destruct E as [rest E].
  apply (f_equal (fun s => nth 9 s 0%N)) in E.
  change (nth 9 (end_marker ++ rest) 0%N) with semicolon in E.
  destruct (Nat.le_gt_cases 10 (List.length x)) as [Hlong|Hshort].
  - rewrite app_nth1 in E by lia.
    rewrite Forall_forall in Hx. apply (Hx (nth 9 x 0%N)); [|exact E].
    apply nth_In. lia.
  - rewrite app_nth2 in E by lia.
    assert (Hlen : (0 < List.length x)%nat)
      by (destruct x; [congruence | simpl; lia]).
    remember (9 - List.length x)%nat as n eqn:En.
    assert (Hn : (n <= 8)%nat) by lia. clear En.
    do 9 (destruct n as [|n]; [discriminate E|]). lia.
Qed.

Lemma end_marker_found_at_end (x : str) pos :
  Forall (fun c => c <> semicolon) x ->
  find_from end_marker (x ++ end_marker) pos = Some (pos + len x).
Proof.
  intros Hx. revert pos. induction Hx as [|c x Hc Hx IH]; intros pos.
  - simpl app. change (find_from end_marker end_marker pos) with (Some pos).
    f_equal. unfold len. simpl. lia.
  - rewrite <- app_comm_cons, find_from_cons.
    change (c :: x ++ end_marker) with ((c :: x) ++ end_marker).
    rewrite end_marker_not_before; [|now constructor | discriminate].
    rewrite IH. f_equal. unfold len. simpl List.length. lia.
Qed.


Lemma strip_subset s c : In c (strip s) -> In c s.
Proof.
  intros H. destruct (strip_split s) as (l & r & Hs & _).
  rewrite Hs. apply in_or_app. right. apply in_or_app. now left.
Qed.

Lemma institutions_names (P : str -> Prop) rows :
  (forall s, P s -> P (strip s)) ->
  Forall (fun r => P (fst (fst r))) rows ->
  forall w insts w',
    institutions rows w = (inr insts, w') ->
    Forall (fun i => P (inst_name i)) insts.
Proof.
  intros Hstrip Hrows. induction Hrows as [|[[name count] volume] rows Hr _ IH];
    intros w insts w' Hrun; simpl in Hrun.
  - injection Hrun as <- _. constructor.
  - unfold bind in Hrun. destruct volume as [v|]; simpl in Hrun; [|discriminate].
    destruct (institutions rows w) as [[err|tail] w1] eqn:Etail; [discriminate|].
    injection Hrun as <- _. constructor; [now apply Hstrip | exact (IH _ _ _ Etail)].
Qed.

Lemma bucket_order_without_semicolon label :
  In label bucket_order -> ~ In semicolon label.
Proof.
  unfold bucket_order. intros H.
  repeat destruct H as [H|H]; try contradiction; subst; vm_compute;
    intros H; repeat destruct H as [H|H]; try discriminate H; try contradiction.
Qed.

Lemma query_buckets_labels_known conn s e w bs w' :
  query_buckets conn s e w = (inr bs, w') ->
  Forall (fun b => In (bucket_range b) bucket_order) bs.
Proof.
  intros Hrun.
  destruct (exec_buckets conn s e) as [err|rows] eqn:Hrows.
  { unfold query_buckets, bind, lift in Hrun. rewrite Hrows in Hrun.
    discriminate. }
  destruct (Forall_Exists_dec (fun r => In (fst r) bucket_order)
              (fun r => in_dec (list_eq_dec N.eq_dec) (fst r) bucket_order)
              rows) as [Hall|Hex].
  - rewrite (query_buckets_ok conn s e rows w Hrows Hall) in Hrun.
    injection Hrun as <- _.
    apply Forall_forall. intros b Hb. apply in_map_iff in Hb.
    destruct Hb as ([k x] & <- & Hkx). simpl.
    apply (Permutation_in _ (sort_keyed_perm _)) in Hkx.
    apply in_map_iff in Hkx. destruct Hkx as (b & [= _ <-] & Hb).
    apply in_map_iff in Hb. destruct Hb as (r & <- & Hr).
    rewrite Forall_forall in Hall. now apply Hall.
  - destruct (query_buckets_raises conn s e rows w Hrows Hex) as (l & _ & Hl).
    congruence.
Qed.

Lemma range_result_strings conn s e snap :
  names_without_semicolon conn ->
  range_result conn s e = inr snap ->
  Forall (fun x => ~ In semicolon x) (snapshot_strings snap).
Proof.
  intros Hnames. unfold range_result, query_range, bind.
  destruct (query_summary_stats conn s e world0) as [[err|st] w1];
    [discriminate|].
  destruct (query_buckets conn s e w1) as [[err|bs] w2] eqn:Hb; [discriminate|].
  unfold query_top_by_frequency, query_top_by_volume, bind, lift.
  destruct (exec_top_by_frequency conn s e) as [err|frows] eqn:Hf;
    [discriminate|].
  destruct (institutions frows w2) as [[err|fs] w3] eqn:Hfi; [discriminate|].
  destruct (exec_top_by_volume conn s e) as [err|vrows] eqn:Hv;
    [discriminate|].
  destruct (institutions vrows w3) as [[err|vs] w4] eqn:Hvi; [discriminate|].
  intros [= <-]. unfold snapshot_strings. cbn [buckets topByFrequency topByVolume].
  assert (Hstrip : forall x, ~ In semicolon x -> ~ In semicolon (strip x))
    by (intros x Hx Hin; now apply Hx, strip_subset).
  apply Forall_app; split; [|apply Forall_app; split].
  - apply Forall_forall. intros x Hx. apply in_map_iff in Hx.
    destruct Hx as (b & <- & Hbin).
    apply bucket_order_without_semicolon.
    pose proof (query_buckets_labels_known _ _ _ _ _ _ Hb) as Hk.
    rewrite Forall_forall in Hk. now apply Hk.
  - apply Forall_forall. intros x Hx. apply in_map_iff in Hx.
    destruct Hx as (i & <- & Hi).
    pose proof (institutions_names (fun x => ~ In semicolon x) frows Hstrip
                  (Hnames s e frows (or_introl Hf)) _ _ _ Hfi) as H.
    rewrite Forall_forall in H. now apply H.
  - apply Forall_forall. intros x Hx. apply in_map_iff in Hx.
    destruct Hx as (i & <- & Hi).
    pose proof (institutions_names (fun x => ~ In semicolon x) vrows Hstrip
                  (Hnames s e vrows (or_intror Hv)) _ _ _ Hvi) as H.
    rewrite Forall_forall in H. now apply H.
Qed.

Lemma dict_set_Forall {V} (P : str * V -> Prop) k v (d : dict V) :
  Forall P d -> P (k, v) -> Forall P (dict_set k v d).
Proof.
  intros Hd Hkv. induction Hd as [|[k' v'] d Hk' Hd IH]; simpl.
  - now repeat constructor.
  - destruct (str_eqb k' k) eqn:E.
    + apply str_eqb_eq in E. subst k'. now constructor.
    + now constructor.
Qed.

Lemma build_cache_Forall conn (P : str * RangeSnapshot -> Prop)
  date_ranges data_cache cache :
  build_cache conn date_ranges data_cache = inr cache ->
  Forall P data_cache ->
  (forall name s e snap,
     In (name, (s, e)) date_ranges ->
     range_result conn s e = inr snap -> P (cache_key s e, snap)) ->
  Forall P cache.
Proof.
  revert data_cache.
  induction date_ranges as [|[n [s e]] rest IH]; intros data_cache Hb Hacc HP;
    simpl in Hb.
  - now injection Hb as <-.
  - destruct (range_result conn s e) as [err|snap] eqn:E; [discriminate|].
    apply (IH _ Hb).
    + apply dict_set_Forall; [exact Hacc|]. apply (HP n); [now left | exact E].
    + intros name s' e' snap' Hin. apply (HP name). now right.
Qed.

Lemma strftime_ymd_structural ordinal : Forall structural (strftime_ymd ordinal).
Proof.
  assert (Hpad : forall width z, Forall structural (zero_padded width z)).
  { intros width z. unfold zero_padded. apply Forall_app; split.
    - apply Forall_forall. intros c Hc. apply repeat_spec in Hc. subst.
      unfold structural. simpl. tauto.
    - apply (int_repr_structural structural). auto. }
  unfold strftime_ymd. destruct (ord2ymd ordinal) as [[y m] d].
  change (lit "-") with [45%N].
  apply Forall_app; split; [apply Hpad|].
  constructor; [unfold structural; simpl; tauto|].
  apply Forall_app; split; [apply Hpad|].
  constructor; [unfold structural; simpl; tauto|]. apply Hpad.
Qed.

Lemma planned_key_without_semicolon today name s e :
  In (name, (s, e)) (get_date_ranges today) ->
  ~ In semicolon (cache_key s e).
Proof.
  intros Hin.
  assert (Hdate : forall d, Forall structural d -> ~ In semicolon d).
  { intros d Hd H. rewrite Forall_forall in Hd.
    now apply (structural_not_semicolon _ (Hd _ H)). }
  assert (Hkey : forall a b, ~ In semicolon a -> ~ In semicolon b ->
                             ~ In semicolon (cache_key a b)).
  { intros a b Ha Hb H. unfold cache_key in H.
    apply in_app_or in H. destruct H as [H|H]; [now apply Ha|].
    apply in_app_or in H. destruct H as [H|H]; [|now apply Hb].
    vm_compute in H. destruct H as [H|H]; [discriminate H | exact H]. }
  assert (Hlit : forall d : string,
             forallb (fun c => negb (N.eqb c semicolon)) (lit d) = true ->
             ~ In semicolon (lit d)).
  { intros d Hd H. rewrite forallb_forall in Hd. specialize (Hd _ H).
    now rewrite N.eqb_refl in Hd. }
  unfold get_date_ranges in Hin. simpl in Hin.
  repeat (destruct Hin as [Hin|Hin];
          [injection Hin as _ <- <-;
           apply Hkey;
           first [ apply Hdate, strftime_ymd_structural
                 | apply Hlit; reflexivity ]
          |]).
  contradiction.
Qed.

Section MainTwice.

Variable floatstr : float -> str.
Hypothesis floatstr_without_semicolon : forall f, ~ In semicolon (floatstr f).

(** The injector leaves alone an artifact it wrote from the same cache, when
    no string of the cache holds a semicolon. *)
Lemma update_html_file_stable cache w html :
  index_html w = Some html ->
  find html start_marker 0 <> -1 ->
  Forall (fun s => ~ In semicolon s) (cache_strings cache) ->
  exists w1,
    update_html_file floatstr cache w = (inr tt, w1)
    /\ update_html_file floatstr cache w1 = (inr tt, w1).
Proof.
  intros Hfile Hs Hcache.
  destruct (new_data_cache_shape floatstr cache) as (body & Hd & Hn).
  assert (Hdumps : Forall (fun c => c <> semicolon)
                          (dumps floatstr 12 (json_of_cache cache))).
  { unfold dumps.
    apply (dumps_level_chars floatstr (fun c => c <> semicolon)
             (fun s => ~ In semicolon s) (fun _ => True)).
    - exact structural_not_semicolon.
    - exact encode_string_no_semicolon.
    - intros f _. apply Forall_forall. intros c Hc ->.
      exact (floatstr_without_semicolon f Hc).
    - apply json_of_cache_all; [|exact Hcache | exact (fun _ => I)].
      unfold field_names.
      repeat constructor; intros H; vm_compute in H;
        repeat destruct H as [H|H]; try discriminate H; try contradiction. }
  assert (Hbody : Forall (fun c => c <> semicolon) (start_marker ++ body)).
  { rewrite Hd in Hdumps. apply Forall_app in Hdumps.
    destruct Hdumps as [_ Hdumps]. apply Forall_app in Hdumps.
    apply Forall_app; split; [|tauto].
    apply Forall_forall. intros c Hc ->. vm_compute in Hc.
    repeat destruct Hc as [Hc|Hc]; try discriminate Hc; try contradiction. }
  assert (Hblock : find (new_data_cache floatstr cache) end_marker 0
                   = len (new_data_cache floatstr cache) - len end_marker).
  { rewrite Hn, find_0, (app_assoc start_marker body end_marker).
    rewrite (end_marker_found_at_end _ 0 Hbody), !len_app. lia. }
  rewrite (update_html_file_found floatstr cache w html Hfile Hs).
  eexists. split; [reflexivity|].
  destruct (start_marker_found html Hs) as (pre & rest & Hhtml & Hlen & Hfind).
  assert (Hpre : slice_to html (len pre) = pre)
    by (rewrite Hhtml; apply slice_to_len_app).
  rewrite <- Hlen, Hpre.
  apply update_html_file_fixpoint with (rest := rest); [|exact Hblock].
  rewrite <- Hhtml. exact Hfind.
Qed.

(** X9. Running [main] again with the same clock and the same answers of
    the data source, none of whose institution names holds a semicolon,
    completes and leaves the world of the first run as it is. *)
Theorem main_twice env w w1 conn :
  snowflake env = inr conn ->
  names_without_semicolon conn ->
  main floatstr env w = (inr tt, w1) ->
  main floatstr env w1 = (inr tt, w1).
Proof.
  intros Hconn Hnames. rewrite !main_eq, !query_all_data_eq, Hconn.
  destruct (build_cache conn (get_date_ranges (now_ordinal env)) [])
    as [err|cache] eqn:Hb; [discriminate|].
  intros Hrun.
  assert (Hstrings : Forall (fun s => ~ In semicolon s) (cache_strings cache)).
  { assert (Hentries :
              Forall (fun kv => ~ In semicolon (fst kv)
                                /\ Forall (fun x => ~ In semicolon x)
                                          (snapshot_strings (snd kv))) cache).
    { apply (build_cache_Forall conn _ _ _ _ Hb); [constructor|].
      intros name s e snap Hin Hsnap. split.
      - exact (planned_key_without_semicolon _ name s e Hin).
      - exact (range_result_strings conn s e snap Hnames Hsnap). }
    unfold cache_strings. clear Hb Hrun.
    induction Hentries as [|[k r] c [Hk Hr] _ IH]; simpl; [constructor|].
    constructor; [exact Hk|]. apply Forall_app. now split. }
  destruct (index_html w) as [html|] eqn:Hfile;
    [|unfold update_html_file in Hrun; rewrite Hfile in Hrun; discriminate].
  destruct (Z.eq_dec (find html start_marker 0) (-1)) as [Hs|Hs].
  { rewrite (update_html_file_no_start floatstr cache w html Hfile Hs) in Hrun.
    discriminate. }
  destruct (update_html_file_stable cache w html Hfile Hs Hstrings)
    as (w1' & Hfirst & Hsecond).
  rewrite Hfirst in Hrun. injection Hrun as <-. exact Hsecond.
Qed.

End MainTwice.

Lemma main_twice_on_sample :
  main floatstr_integral sample_env sample_updated_world
  = (inr tt, sample_updated_world).
Proof.
  apply (main_twice floatstr_integral floatstr_integral_without_semicolon
           sample_env sample_world sample_updated_world sample_conn).
  - reflexivity.
  - exact sample_conn_names.
  - vm_compute. reflexivity.
Defined.

(** X10. When no range key, bucket label or institution name of the cache
    holds a semicolon (and the float printer writes none), a second update
    with the same cache changes nothing, for every artifact with the opening
    marker, with or without a closing marker. *)
Theorem update_html_file_idempotent_without_semicolon
  (floatstr : float -> str) cache w html :
  index_html w = Some html ->
  find html start_marker 0 <> -1 ->
  (forall f, ~ In semicolon (floatstr f)) ->
  Forall (fun s => ~ In semicolon s) (cache_strings cache) ->
  exists w1,
    update_html_file floatstr cache w = (inr tt, w1)
    /\ update_html_file floatstr cache w1 = (inr tt, w1).
Proof.
  intros Hfile Hs Hfl Hcache.
  exact (update_html_file_stable floatstr Hfl cache w html Hfile Hs Hcache).
Qed.

Lemma update_html_file_idempotent_without_semicolon_on_sample :
  exists w1,
    update_html_file floatstr_integral sample_cache truncated_world = (inr tt, w1)
    /\ update_html_file floatstr_integral sample_cache w1 = (inr tt, w1).
Proof.
  apply (update_html_file_idempotent_without_semicolon floatstr_integral
           sample_cache truncated_world truncated_html).
  - reflexivity.
  - vm_compute. discriminate.
  - exact floatstr_integral_without_semicolon.
  - repeat constructor; vm_compute; intros H;
      repeat destruct H as [H|H]; try discriminate H; try contradiction.
Defined.

Lemma institutions_succeeds_iff rows w :
  (exists insts, institutions rows w = (inr insts, w))
  <-> Forall (fun r => snd r <> None) rows.
Proof.
  destruct (institutions_result rows) as (result & Hrun & Hok & Hnull).
  rewrite Hrun. split.
  - intros [insts [= ->]]. apply Forall_forall. intros r Hr Hnone.
    assert (Hex : Exists (fun r => snd r = None) rows)
      by (apply Exists_exists; now exists r).
    specialize (Hnull Hex). discriminate.
  - intros Hall. destruct (Hok Hall) as (insts & -> & _). now exists insts.
Qed.

(** X11. The four queries of a range complete, leaving the world as it
    is, exactly when the summary has non-null sum and average, every bucket
    label is one of the seven, and every top-10 row has a non-null volume. *)
Theorem query_range_succeeds_iff conn s e w :
  (exists snapshot, query_range conn s e w = (inr snapshot, w))
  <-> range_convertible conn s e.
Proof.
  unfold query_range, range_convertible, bind.
  unfold query_summary_stats at 1. unfold bind, lift.
  destruct (exec_summary conn s e) as [err|[[[u t] [v|]] [a|]]] eqn:Hsum;
    simpl;
    try (split; [intros [snap H]; discriminate
                | intros ((u' & t' & v' & a' & H) & _); discriminate]).
  destruct (exec_buckets conn s e) as [err|brows] eqn:Hb.
  { unfold query_buckets, bind, lift. rewrite Hb.
    split; [intros [snap H]; discriminate
           | intros (_ & (rows & H & _) & _); discriminate]. }
  destruct (Forall_Exists_dec (fun r => In (fst r) bucket_order)
              (fun r => in_dec (list_eq_dec N.eq_dec) (fst r) bucket_order)
              brows) as [Hall|Hex].
  2:{ destruct (query_buckets_raises conn s e brows w Hb Hex) as (l & _ & Hl).
      rewrite Hl. split; [intros [snap H]; discriminate|].
      intros (_ & (rows & [= <-] & Hrows) & _).
      exfalso. apply Exists_exists in Hex. destruct Hex as (r & Hr & Hout).
      rewrite Forall_forall in Hrows. now apply Hout, Hrows. }
  rewrite (query_buckets_ok conn s e brows w Hb Hall).
  unfold query_top_by_frequency, query_top_by_volume, bind, lift.
  destruct (exec_top_by_frequency conn s e) as [err|frows] eqn:Hf.
  { split; [intros [snap H]; discriminate
           | intros (_ & _ & (rows & H & _) & _); discriminate]. }
  destruct (institutions_result frows) as (fres & Hfrun & Hfok & Hfnull).
  rewrite Hfrun.
  destruct (exec_top_by_volume conn s e) as [err|vrows] eqn:Hv.
  { destruct fres; (split; [intros [snap H]; discriminate
                           | intros (_ & _ & _ & (rows & H & _)); discriminate]). }
  destruct (institutions_result vrows) as (vres & Hvrun & Hvok & Hvnull).
  destruct fres as [ferr|fs].
  { split; [intros [snap H]; discriminate|].
    intros (_ & _ & (rows & [= <-] & Hrows) & _).
    destruct (Hfok Hrows) as (insts & H & _). discriminate. }
  rewrite Hvrun.
  destruct vres as [verr|vs].
  { split; [intros [snap H]; discriminate|].
    intros (_ & _ & _ & (rows & [= <-] & Hrows)).
    destruct (Hvok Hrows) as (insts & H & _). discriminate. }
  split; [intros _ | intros _; now eexists].
  assert (Hnonnull : forall rows res,
             (Exists (fun r : str * Z * option float => snd r = None) rows ->
              @inr exn (list InstitutionAgg) res = inl TypeError) ->
             Forall (fun r => snd r <> None) rows).
  { intros rows res Hnull. apply Forall_forall. intros r Hr Hnone.
    assert (Hex : Exists (fun r => snd r = None) rows)
      by (apply Exists_exists; now exists r).
    specialize (Hnull Hex). discriminate. }
  repeat split.
  - now exists u, t, v, a.
  - now exists brows.
  - exists frows. split; [reflexivity | exact (Hnonnull _ _ Hfnull)].
  - exists vrows. split; [reflexivity | exact (Hnonnull _ _ Hvnull)].
Qed.
